(** * Question answering over a passage: feature construction and answer decoding

    A shallow embedding of [qna/src/question_and_answer.ts] (the class
    [QuestionAndAnswerImpl]) and the properties its specification states.

    Conventions of the embedding.
    - A JavaScript string is the list of its UTF-16 code units ([list N]);
      [String.prototype.length] is the length of that list.
    - Integers (lengths, offsets, token ids, positions) are [Z].
    - Logits and scores are rationals ([Q]): the finite, non-NaN numbers.
      A numeric literal of the code is the double it is read as. The
      rounding of a floating point sum is not modelled.
    - [tokenToOrigMap], an object used as a map from positions to indices,
      is a [gmap Z Z].
    - The tokenizer and the graph model are collaborators of the class: they
      are the fields of a record and every theorem quantifies over them. *)

From Stdlib Require Import ZArith QArith List Lia Ascii String Sorted Permutation.
From stdpp Require Import gmap.
Import ListNotations.

Local Open Scope Z_scope.

(** ** Strings *)

Abbreviation jsString := (list N).

(** The code units of an ASCII literal, to write examples. *)
Definition str (s : string) : jsString :=
  List.map N_of_ascii (list_ascii_of_string s).

Definition len {A : Type} (l : list A) : Z := Z.of_nat (List.length l).

(** [WhiteSpace] and [LineTerminator] of ECMAScript: what [trim] strips. *)
Definition isWhiteSpace (c : N) : bool :=
  ((9 <=? c) && (c <=? 13) || (c =? 32) || (c =? 160) || (c =? 5760)
   || (8192 <=? c) && (c <=? 8202) || (c =? 8232) || (c =? 8233)
   || (c =? 8239) || (c =? 8287) || (c =? 12288) || (c =? 65279))%N.

Fixpoint dropWhile {A : Type} (p : A -> bool) (l : list A) : list A :=
  match l with
  | [] => []
  | x :: l' => if p x then dropWhile p l' else l
  end.

(** [s.trim()] *)
Definition trim (s : jsString) : jsString :=
  rev (dropWhile isWhiteSpace (rev (dropWhile isWhiteSpace s))).

Definition QUESTION_MARK : N := 63%N.

(** [s.replace(/\?/g, '')] *)
Definition removeQuestionMarks (s : jsString) : jsString :=
  List.filter (fun c => negb (c =? QUESTION_MARK)%N) s.

(** The first three statements of [process]: the query is stripped of its
    question marks, trimmed, and given one question mark at its end. *)
Definition normalize (query : jsString) : jsString :=
  let query := removeQuestionMarks query in
  let query := trim query in
  query ++ [QUESTION_MARK].

(** [s.slice(from, to)]: negative indices count from the end, both are
    clamped to the string. *)
Definition sliceIndex (n i : Z) : Z :=
  if i <? 0 then Z.max (n + i) 0 else Z.min i n.

Definition slice (s : jsString) (from to : Z) : jsString :=
  let n := len s in
  let from := sliceIndex n from in
  let to := sliceIndex n to in
  firstn (Z.to_nat (to - from)) (skipn (Z.to_nat from) s).

(** [a[i]] of an array: [None] stands for [undefined]. *)
Definition lookupZ {A : Type} (l : list A) (i : Z) : option A :=
  if i <? 0 then None else nth_error l (Z.to_nat i).

(** ** Constants of the module *)

Definition INPUT_SIZE : Z := 384.
Definition MAX_ANSWER_LEN : Z := 32.
Definition MAX_QUERY_LEN : Z := 64.
Definition MAX_SEQ_LEN : Z := 384.
Definition PREDICT_ANSWER_NUM : Z := 5.
Definition OUTPUT_OFFSET : Z := 1.
(** The literal [4.3980759382247925] is read as the double nearest to it,
    [36893735 / 2^23] (lemma [NO_ANSWER_THRESHOLD_literal]), a little under
    the decimal: this double is what scores are compared with. *)
Definition NO_ANSWER_THRESHOLD : Q := 36893735 # 8388608.
(** The default value of [process]'s parameter [docStride]. *)
Definition DOC_STRIDE : Z := 128.

(** ** Data *)

Module Token.
Record t := mk { text : jsString; index : Z }.
End Token.

Module Answer.
Record t := mk {
  text : jsString;
  startIndex : Z;
  endIndex : Z;
  score : Q;
  context : jsString;
  id : option jsString
}.
End Answer.

Module Feature.
Record t := mk {
  inputIds : list Z;
  inputMask : list Z;
  segmentIds : list Z;
  origTokens : list Token.t;
  tokenToOrigMap : gmap Z Z
}.
End Feature.

Module AnswerIndex.
Record t := mk { start : Z; end_ : Z; score : Q }.
End AnswerIndex.

(** An element of [docSpans]. *)
Module DocSpan.
Record t := mk { start : Z; length : Z }.
End DocSpan.

(** ** Collaborators *)

(** What [process] uses of [./bert_tokenizer]: the two methods of the
    tokenizer and the ids of the two special tokens. *)
Record BertTokenizer := {
  tokenize : jsString -> list Z;
  processInput : jsString -> list Token.t;
  CLS_INDEX : Z;
  SEP_INDEX : Z
}.

(** [model.execute] on the three input arrays, each of [batchSize] rows:
    the rows of [start_logits] and of [end_logits]. *)
Definition GraphModel : Type :=
  list (list Z) -> list (list Z) -> list (list Z) -> list (list Q) * list (list Q).

Record QuestionAndAnswerImpl := {
  model : GraphModel;
  tokenizer : BertTokenizer
}.

(** ** Effects

    A computation takes the calls made to the collaborators so far and
    returns them extended, with how it ended: a value, a thrown error, or no
    end at all. *)

Inductive event : Type :=
| EvTokenize (text : jsString)
| EvProcessInput (text : jsString)
| EvExecute (batchSize : Z).

(** The two [Error]s the class throws itself, and the [TypeError] of reading
    a property of [undefined]. *)
Inductive error : Type :=
| InvalidInput
| InputTooLong (maxQueryLen : Z)
| TypeError.

Inductive outcome (A : Type) : Type :=
| Ret (a : A)
| Throw (e : error)
| Diverge.
Arguments Ret {A} a.
Arguments Throw {A} e.
Arguments Diverge {A}.

Definition M (A : Type) : Type := list event -> list event * outcome A.

#[global] Instance M_ret : MRet M := fun A a tr => (tr, Ret a).

#[global] Instance M_bind : MBind M := fun A B f m tr =>
  match m tr with
  | (tr', Ret a) => f a tr'
  | (tr', Throw e) => (tr', Throw e)
  | (tr', Diverge) => (tr', Diverge)
  end.

Definition throw {A : Type} (e : error) : M A := fun tr => (tr, Throw e).

Definition diverge {A : Type} : M A := fun tr => (tr, Diverge).

(** A step that can only fail with a [TypeError]. *)
Definition orTypeError {A : Type} (o : option A) : M A :=
  match o with
  | Some a => mret a
  | None => throw TypeError
  end.

Definition tokenizeM (self : QuestionAndAnswerImpl) (text : jsString) : M (list Z) :=
  fun tr => (tr ++ [EvTokenize text], Ret (tokenize (tokenizer self) text)).

Definition processInputM (self : QuestionAndAnswerImpl) (text : jsString)
  : M (list Token.t) :=
  fun tr => (tr ++ [EvProcessInput text], Ret (processInput (tokenizer self) text)).

Definition executeM (self : QuestionAndAnswerImpl)
    (inputIds segmentIds inputMask : list (list Z))
  : M (list (list Q) * list (list Q)) :=
  fun tr => (tr ++ [EvExecute (len inputIds)],
             Ret (model self inputIds segmentIds inputMask)).

(** ** [process]: feature construction *)

(** The loop over [origTokens]: every token is tokenized into its sub-words,
    each pushed on [allDocTokens] with the token's index pushed on
    [tokenToOrigIndex]. The state is [(tokenToOrigIndex, allDocTokens)]. *)
Fixpoint docTokensLoop (self : QuestionAndAnswerImpl) (i : Z)
    (origTokens : list Token.t) (st : list Z * list Z) : M (list Z * list Z) :=
  match origTokens with
  | [] => mret st
  | token :: rest =>
      subTokens ← tokenizeM self (Token.text token);
      docTokensLoop self (i + 1) rest
        (st.1 ++ List.map (fun _ => i) subTokens, st.2 ++ subTokens)
  end.

(** The [while] loop that fills [docSpans], from [startOffset] on; [total]
    is [allDocTokens.length]. It need not end: [fuel] bounds the number of
    turns, and [None] is a loop that ran out of it. *)
Fixpoint docSpansLoop (fuel : nat) (total maxContextLen docStride : Z)
    (startOffset : Z) (docSpans : list DocSpan.t) : option (list DocSpan.t) :=
  match fuel with
  | O => None
  | S fuel' =>
      if startOffset <? total then
        let length := total - startOffset in
        let length := if length >? maxContextLen then maxContextLen else length in
        let docSpans := docSpans ++ [DocSpan.mk startOffset length] in
        if startOffset + length =? total then Some docSpans
        else docSpansLoop fuel' total maxContextLen docStride
               (startOffset + Z.min length docStride) docSpans
      else Some docSpans
  end.

(** One turn more than there are sub-words: enough for every loop that ends
    (lemma [docSpansLoop_fuel]). *)
Definition docSpansOf (total maxContextLen docStride : Z) : option (list DocSpan.t) :=
  docSpansLoop (S (Z.to_nat total)) total maxContextLen docStride 0 [].

(** [a[i]] where the code reads an array of numbers it has filled itself. *)
Definition getZ (l : list Z) (i : Z) : Z := default 0 (lookupZ l i).

(** One turn of the loop over a window: the state is
    [(tokens, segmentIds, tokenToOrigMap)]. *)
Definition featureStep (allDocTokens tokenToOrigIndex : list Z) (docSpan : DocSpan.t)
    (st : list Z * list Z * gmap Z Z) (i : Z) : list Z * list Z * gmap Z Z :=
  let '(tokens, segmentIds, tokenToOrigMap) := st in
  let splitTokenIndex := i + DocSpan.start docSpan in
  let docToken := getZ allDocTokens splitTokenIndex in
  let tokens := tokens ++ [docToken] in
  let segmentIds := segmentIds ++ [1] in
  (tokens, segmentIds,
   <[len tokens := getZ tokenToOrigIndex splitTokenIndex]> tokenToOrigMap).

(** [0, 1, ..., n-1], the values of a counter [for (let i = 0; i < n; i++)]. *)
Definition upto (n : Z) : list Z := List.map Z.of_nat (seq 0 (Z.to_nat n)).

(** The function mapped over [docSpans]: the feature of one window. *)
Definition makeFeature (self : QuestionAndAnswerImpl) (queryTokens : list Z)
    (origTokens : list Token.t) (allDocTokens tokenToOrigIndex : list Z)
    (maxSeqLen : Z) (docSpan : DocSpan.t) : Feature.t :=
  let tokens := [CLS_INDEX (tokenizer self)] ++ queryTokens ++ [SEP_INDEX (tokenizer self)] in
  let segmentIds := [0] ++ List.map (fun _ => 0) queryTokens ++ [0] in
  let '(tokens, segmentIds, tokenToOrigMap) :=
    fold_left (featureStep allDocTokens tokenToOrigIndex docSpan)
      (upto (DocSpan.length docSpan)) (tokens, segmentIds, ∅) in
  let tokens := tokens ++ [SEP_INDEX (tokenizer self)] in
  let segmentIds := segmentIds ++ [1] in
  let inputIds := tokens in
  let inputMask := List.map (fun _ => 1) inputIds in
  let padding := repeat 0 (Z.to_nat (maxSeqLen - len inputIds)) in
  Feature.mk (inputIds ++ padding) (inputMask ++ padding) (segmentIds ++ padding)
    origTokens tokenToOrigMap.

Definition process (self : QuestionAndAnswerImpl) (query context : jsString)
    (maxQueryLen maxSeqLen docStride : Z) : M (list Feature.t) :=
  let query := removeQuestionMarks query in
  let query := trim query in
  let query := query ++ [QUESTION_MARK] in
  queryTokens ← tokenizeM self query;
  if len queryTokens >? maxQueryLen then throw (InputTooLong maxQueryLen)
  else
    origTokens ← processInputM self (trim context);
    '(tokenToOrigIndex, allDocTokens) ← docTokensLoop self 0 origTokens ([], []);
    let maxContextLen := maxSeqLen - len queryTokens - 3 in
    match docSpansOf (len allDocTokens) maxContextLen docStride with
    | None => diverge
    | Some docSpans =>
        mret (List.map
                (makeFeature self queryTokens origTokens allDocTokens tokenToOrigIndex
                   maxSeqLen)
                docSpans)
    end.

(** ** Sorting

    [Array.prototype.sort] with a comparison function that is a consistent
    order is stable and yields the one sorted arrangement that keeps equal
    elements in their order: the insertion sort below computes it.
    [compareFn x y > 0] says that [x] goes after [y]. *)

Definition Qpositive (q : Q) : bool := 0 <? Qnum q.

Fixpoint sortInsert {A : Type} (compareFn : A -> A -> Q) (x : A) (sorted : list A)
  : list A :=
  match sorted with
  | [] => [x]
  | y :: rest =>
      if Qpositive (compareFn x y) then y :: sortInsert compareFn x rest
      else x :: sorted
  end.

Definition jsSort {A : Type} (compareFn : A -> A -> Q) (l : list A) : list A :=
  fold_right (sortInsert compareFn) [] l.

(** ** The answer decoder *)

(** [logits[i]], read in a row of [MAX_SEQ_LEN] numbers. *)
Definition getQ (l : list Q) (i : Z) : Q := default 0%Q (lookupZ l i).

(** [tmpList] holds [[i, i, logits[i]]]; the model keeps the index once. *)
Definition getBestIndex (logits : list Q) : list Z :=
  let tmpList := List.map (fun i => (i, getQ logits i)) (upto MAX_SEQ_LEN) in
  let tmpList := jsSort (fun a b => (b.2 - a.2)%Q) tmpList in
  List.map fst (firstn (Z.to_nat PREDICT_ANSWER_NUM) tmpList).

(** A value read in [tokenToOrigMap], as a condition: [undefined] and [0]
    are false. *)
Definition truthy (v : option Z) : bool :=
  match v with
  | Some n => negb (n =? 0)
  | None => false
  end.

(** The two nested [forEach] that fill [origResults]. *)
Definition origResultsOf (startLogits endLogits : list Q) (tokenToOrigMap : gmap Z Z)
    (startIndexes endIndexes : list Z) : list AnswerIndex.t :=
  flat_map (fun start =>
    flat_map (fun end_ =>
      if truthy (tokenToOrigMap !! (start + OUTPUT_OFFSET))
         && truthy (tokenToOrigMap !! (end_ + OUTPUT_OFFSET))
         && (end_ >=? start)
      then
        let length := end_ - start + 1 in
        if length <? MAX_ANSWER_LEN
        then [AnswerIndex.mk start end_ (getQ startLogits start + getQ endLogits end_)%Q]
        else []
      else [])
      endIndexes)
    startIndexes.

(** A [TypeError] (reading [.index] or [.text] of [undefined]) is [None]. *)
Definition convertBack (origTokens : list Token.t) (tokenToOrigMap : gmap Z Z)
    (start end_ : Z) (context : jsString) : option (jsString * Z * Z) :=
  let shiftedStart := start + OUTPUT_OFFSET in
  let shiftedEnd := end_ + OUTPUT_OFFSET in
  startToken ← (startIndex ← tokenToOrigMap !! shiftedStart;
                lookupZ origTokens startIndex);
  let startCharIndex := Token.index startToken in
  endCharIndex ←
    match tokenToOrigMap !! shiftedEnd with
    | Some endIndex =>
        if endIndex <? len origTokens - 1
        then next ← lookupZ origTokens (endIndex + 1);
             Some (Token.index next - 1)
        else last ← lookupZ origTokens endIndex;
             Some (Token.index last + len (Token.text last))
    | None => None
    end;
  Some (trim (slice context startCharIndex (endCharIndex + 1)),
        startCharIndex, endCharIndex).

Definition Qltb (x y : Q) : bool := negb (Qle_bool y x).

(** The loop over the sorted [origResults], from index [i] on. *)
Fixpoint answersLoop (origTokens : list Token.t) (tokenToOrigMap : gmap Z Z)
    (context : jsString) (id : option jsString) (i : Z)
    (origResults : list AnswerIndex.t) : option (list Answer.t) :=
  match origResults with
  | [] => Some []
  | r :: rest =>
      if (i >=? PREDICT_ANSWER_NUM) || Qltb (AnswerIndex.score r) NO_ANSWER_THRESHOLD
      then Some []
      else
        '(convertedText, startIndex, endIndex) ←
          (if AnswerIndex.start r >? 0
           then convertBack origTokens tokenToOrigMap (AnswerIndex.start r)
                  (AnswerIndex.end_ r) context
           else Some ([], 0, 0));
        answers ← answersLoop origTokens tokenToOrigMap context id (i + 1) rest;
        Some (Answer.mk convertedText startIndex endIndex (AnswerIndex.score r)
                context id :: answers)
  end.

Definition sortedOrigResults (startLogits endLogits : list Q)
    (tokenToOrigMap : gmap Z Z) : list AnswerIndex.t :=
  let startIndexes := getBestIndex startLogits in
  let endIndexes := getBestIndex endLogits in
  let origResults :=
    origResultsOf startLogits endLogits tokenToOrigMap startIndexes endIndexes in
  jsSort (fun a b => (AnswerIndex.score b - AnswerIndex.score a)%Q) origResults.

Definition getBestAnswers (startLogits endLogits : list Q) (origTokens : list Token.t)
    (tokenToOrigMap : gmap Z Z) (context : jsString) (docIndex : Z)
    (id : option jsString) : option (list Answer.t) :=
  answersLoop origTokens tokenToOrigMap context id 0
    (sortedOrigResults startLogits endLogits tokenToOrigMap).

(** The loop of [findAnswers] over the batch, from row [i] on. *)
Fixpoint batchLoop (logits : list (list Q) * list (list Q)) (context : jsString)
    (id : option jsString) (i : Z) (features : list Feature.t)
  : option (list (list Answer.t)) :=
  match features with
  | [] => Some []
  | f :: rest =>
      startLogits ← lookupZ logits.1 i;
      endLogits ← lookupZ logits.2 i;
      answers ← getBestAnswers startLogits endLogits (Feature.origTokens f)
                  (Feature.tokenToOrigMap f) context i id;
      others ← batchLoop logits context id (i + 1) rest;
      Some (answers :: others)
  end.

(** [null] and [undefined] are [None]. *)
Definition findAnswers (self : QuestionAndAnswerImpl)
    (question context : option jsString) (id : option jsString)
  : M (list Answer.t) :=
  match question, context with
  | Some question, Some context =>
      features ← process self question context MAX_QUERY_LEN MAX_SEQ_LEN DOC_STRIDE;
      let inputIdArray := List.map Feature.inputIds features in
      let segmentIdArray := List.map Feature.segmentIds features in
      let inputMaskArray := List.map Feature.inputMask features in
      logits ← executeM self inputIdArray segmentIdArray inputMaskArray;
      answers ← orTypeError (batchLoop logits context id 0 features);
      mret (firstn (Z.to_nat PREDICT_ANSWER_NUM)
              (jsSort (fun logitA logitB => (Answer.score logitB - Answer.score logitA)%Q)
                 (concat answers)))
  | _, _ => throw InvalidInput
  end.

(** ** A concrete tokenizer and model, for runs on concrete inputs *)

(** Modelled from the spec: the tokenizer collaborator ([./bert_tokenizer]),
    whose code is not among the sources. [processInput] yields the tokens of
    the text that white space separates, each with the offset it starts at;
    [tokenize] yields one sub-word per character of each such token, with an
    id from 1000 on, so that no sub-word is a special token. *)
Fixpoint wordsFrom (s : jsString) (pos : Z) (word : jsString) (wordStart : Z)
  : list Token.t :=
  match s with
  | [] => match word with [] => [] | _ => [Token.mk word wordStart] end
  | c :: s' =>
      if isWhiteSpace c
      then match word with [] => [] | _ => [Token.mk word wordStart] end
           ++ wordsFrom s' (pos + 1) [] (pos + 1)
      else wordsFrom s' (pos + 1) (word ++ [c])
             (match word with [] => pos | _ => wordStart end)
  end.

(** Modelled from the spec: the tokenizer collaborator, with the ids 101 and
    102 of BERT vocabularies for the two special tokens. *)
Definition exampleTokenizer : BertTokenizer := {|
  tokenize := fun s =>
    flat_map (fun t => List.map (fun c => 1000 + Z.of_N c) (Token.text t))
      (wordsFrom s 0 [] 0);
  processInput := fun s => wordsFrom s 0 [] 0;
  CLS_INDEX := 101;
  SEP_INDEX := 102
|}.

(** A row of [MAX_SEQ_LEN] logits that are 0 but for a peak of 10. *)
Definition peakRow (peak : nat) : list Q :=
  List.map (fun i => if Nat.eqb i peak then 10%Q else 0%Q) (seq 0 (Z.to_nat MAX_SEQ_LEN)).

(** A model whose start logits peak at [startPeak] and end logits at
    [endPeak], in every row of the batch. *)
Definition peakModel (startPeak endPeak : nat) : GraphModel :=
  fun inputIds _ _ =>
    (List.map (fun _ => peakRow startPeak) inputIds,
     List.map (fun _ => peakRow endPeak) inputIds).

Definition exampleImpl (startPeak endPeak : nat) : QuestionAndAnswerImpl := {|
  model := peakModel startPeak endPeak;
  tokenizer := exampleTokenizer
|}.

(** The model's outputs have the shape [[batchSize, MAX_SEQ_LEN]]. *)
Definition modelShape (g : GraphModel) : Prop :=
  forall inputIds segmentIds inputMask,
    let logits := g inputIds segmentIds inputMask in
    List.length logits.1 = List.length inputIds
    /\ List.length logits.2 = List.length inputIds
    /\ Forall (fun row => len row = MAX_SEQ_LEN) logits.1
    /\ Forall (fun row => len row = MAX_SEQ_LEN) logits.2.

(** ** Names for what [process] computes on the way *)

Definition queryTokensOf (self : QuestionAndAnswerImpl) (query : jsString) : list Z :=
  tokenize (tokenizer self) (normalize query).

Definition origTokensOf (self : QuestionAndAnswerImpl) (context : jsString)
  : list Token.t :=
  processInput (tokenizer self) (trim context).

(** The sub-words of each original token, in order. *)
Definition subTokensOf (self : QuestionAndAnswerImpl) (context : jsString)
  : list (list Z) :=
  List.map (fun token => tokenize (tokenizer self) (Token.text token))
    (origTokensOf self context).

(** For each sub-word the index of the token it comes from, the tokens being
    numbered from [i] on. *)
Fixpoint originsFrom (i : Z) (subTokens : list (list Z)) : list Z :=
  match subTokens with
  | [] => []
  | s :: rest => List.map (fun _ => i) s ++ originsFrom (i + 1) rest
  end.

Definition allDocTokensOf (self : QuestionAndAnswerImpl) (context : jsString) : list Z :=
  concat (subTokensOf self context).

Definition tokenToOrigIndexOf (self : QuestionAndAnswerImpl) (context : jsString)
  : list Z :=
  originsFrom 0 (subTokensOf self context).

Definition maxContextLenOf (self : QuestionAndAnswerImpl) (query : jsString)
    (maxSeqLen : Z) : Z :=
  maxSeqLen - len (queryTokensOf self query) - 3.

(** The sub-words of a window, in order. *)
Definition windowTokens (allDocTokens : list Z) (docSpan : DocSpan.t) : list Z :=
  List.map (fun i => getZ allDocTokens (i + DocSpan.start docSpan))
    (upto (DocSpan.length docSpan)).

Definition featureOf (self : QuestionAndAnswerImpl) (query context : jsString)
    (maxSeqLen : Z) (docSpan : DocSpan.t) : Feature.t :=
  makeFeature self (queryTokensOf self query) (origTokensOf self context)
    (allDocTokensOf self context) (tokenToOrigIndexOf self context) maxSeqLen docSpan.

(** The calls [process] makes to the tokenizer, in order. *)
Definition processEvents (self : QuestionAndAnswerImpl) (query context : jsString)
    (maxQueryLen : Z) : list event :=
  EvTokenize (normalize query) ::
  (if len (queryTokensOf self query) >? maxQueryLen then []
   else EvProcessInput (trim context) ::
        List.map (fun token => EvTokenize (Token.text token)) (origTokensOf self context)).

(** How [process] ends. *)
Definition processOutcome (self : QuestionAndAnswerImpl) (query context : jsString)
    (maxQueryLen maxSeqLen docStride : Z) : outcome (list Feature.t) :=
  if len (queryTokensOf self query) >? maxQueryLen then Throw (InputTooLong maxQueryLen)
  else
    match docSpansOf (len (allDocTokensOf self context))
            (maxContextLenOf self query maxSeqLen) docStride with
    | None => Diverge
    | Some docSpans => Ret (List.map (featureOf self query context maxSeqLen) docSpans)
    end.

(** The windows of a loop started at [startOffset], as a relation: the loop
    is over ([windows_none], which only a sequence without sub-word meets),
    pushes its last window, or pushes a full window and goes on. *)
Inductive windows (total maxContextLen docStride : Z) : Z -> list DocSpan.t -> Prop :=
| windows_none startOffset :
    total <= startOffset ->
    windows total maxContextLen docStride startOffset []
| windows_last startOffset :
    startOffset < total ->
    total - startOffset <= maxContextLen ->
    windows total maxContextLen docStride startOffset
      [DocSpan.mk startOffset (total - startOffset)]
| windows_next startOffset rest :
    startOffset < total ->
    maxContextLen < total - startOffset ->
    windows total maxContextLen docStride
      (startOffset + Z.min maxContextLen docStride) rest ->
    windows total maxContextLen docStride startOffset
      (DocSpan.mk startOffset maxContextLen :: rest).

(** ** Names for what the decoder does with a candidate *)

(** [a] is the answer pushed for the candidate [r], on either branch of the
    test [origResults[i].start > 0]. *)
Definition answerOf (origTokens : list Token.t) (tokenToOrigMap : gmap Z Z)
    (context : jsString) (id : option jsString)
    (r : AnswerIndex.t) (a : Answer.t) : Prop :=
  (if AnswerIndex.start r >? 0
   then convertBack origTokens tokenToOrigMap (AnswerIndex.start r)
          (AnswerIndex.end_ r) context
   else Some ([], 0, 0))
  = Some (Answer.text a, Answer.startIndex a, Answer.endIndex a)
  /\ Answer.score a = AnswerIndex.score r
  /\ Answer.context a = context
  /\ Answer.id a = id.

(** [a] is the answer pushed for the candidate [r] on the branch that calls
    [convertBack]. *)
Definition convertedFrom (origTokens : list Token.t) (tokenToOrigMap : gmap Z Z)
    (context : jsString) (id : option jsString)
    (r : AnswerIndex.t) (a : Answer.t) : Prop :=
  0 < AnswerIndex.start r
  /\ convertBack origTokens tokenToOrigMap (AnswerIndex.start r)
       (AnswerIndex.end_ r) context
     = Some (Answer.text a, Answer.startIndex a, Answer.endIndex a)
  /\ Answer.score a = AnswerIndex.score r
  /\ Answer.context a = context
  /\ Answer.id a = id.

(** The "no answer" value of the other branch. *)
Definition isSentinel (a : Answer.t) : Prop :=
  Answer.text a = [] /\ Answer.startIndex a = 0 /\ Answer.endIndex a = 0.

(** The entries of the map that are token indices other than 0 are indices
    of [origTokens]. *)
Definition mapInRange (f : Feature.t) : Prop :=
  forall key v,
    Feature.tokenToOrigMap f !! key = Some v -> v <> 0 ->
    0 <= v < len (Feature.origTokens f).

(** The comparison function of the last sort of [findAnswers]. *)
Definition byScore (logitA logitB : Answer.t) : Q :=
  (Answer.score logitB - Answer.score logitA)%Q.

(** ** Statements about a feature and its window *)

(** The map of the feature [f] of the window [docSpan] holds, for each
    sub-word of the window, the index of the token it comes from, under the
    sub-word's position in the assembled sequence shifted by [offset], and
    holds nothing else. The sub-word [i] of the window is the sub-word
    [start + i] of the passage and stands at position [q + 2 + i], after the
    classification marker, the [q] query tokens and the separator. *)
Definition mapKeyedAt (offset : Z) (self : QuestionAndAnswerImpl)
    (query context : jsString) (docSpan : DocSpan.t) (f : Feature.t) : Prop :=
  let q := len (queryTokensOf self query) in
  (forall i, 0 <= i < DocSpan.length docSpan ->
     is_Some (lookupZ (allDocTokensOf self context) (DocSpan.start docSpan + i))
     /\ lookupZ (Feature.inputIds f) (q + 2 + i)
        = lookupZ (allDocTokensOf self context) (DocSpan.start docSpan + i)
     /\ Feature.tokenToOrigMap f !! (q + 2 + i + offset)
        = lookupZ (tokenToOrigIndexOf self context) (DocSpan.start docSpan + i))
  /\ (forall key, is_Some (Feature.tokenToOrigMap f !! key) ->
        exists i, 0 <= i < DocSpan.length docSpan /\ key = q + 2 + i + offset).

(** Each window starts exactly [step] sub-words after the one before it,
    the last window too. *)
Definition advancesBy (step : Z) (docSpans : list DocSpan.t) : Prop :=
  forall (i : nat) (a b : DocSpan.t),
    nth_error docSpans i = Some a -> nth_error docSpans (S i) = Some b ->
    DocSpan.start b = DocSpan.start a + step.

(** The windows cover the sequence of [total] sub-words: the first starts at
    0, each lies in the sequence and is not empty, each starts no later than
    where the one before it ends, and the last ends where the sequence ends. *)
Definition covering (total : Z) (docSpans : list DocSpan.t) : Prop :=
  (exists first rest, docSpans = first :: rest /\ DocSpan.start first = 0)
  /\ (forall docSpan, In docSpan docSpans ->
        0 <= DocSpan.start docSpan /\ 0 < DocSpan.length docSpan
        /\ DocSpan.start docSpan + DocSpan.length docSpan <= total)
  /\ (forall (i : nat) (a b : DocSpan.t),
        nth_error docSpans i = Some a -> nth_error docSpans (S i) = Some b ->
        DocSpan.start a < DocSpan.start b <= DocSpan.start a + DocSpan.length a)
  /\ (forall docSpan, last docSpans = Some docSpan ->
        DocSpan.start docSpan + DocSpan.length docSpan = total).

(** The decoder on the feature [f] of a query never takes the branch of the
    "no answer" value: the least key of the map is [q + 3], every candidate
    starts after position 0, and [getBestAnswers] returns the conversions of
    a prefix of its sorted candidates; none of them is the "no answer" value
    when every token but the first starts after offset 0. *)
Definition decodesWithoutSentinel (self : QuestionAndAnswerImpl) (query : jsString)
    (f : Feature.t) : Prop :=
  let m := Feature.tokenToOrigMap f in
  let q := len (queryTokensOf self query) in
  is_Some (m !! (q + 3))
  /\ (forall key, is_Some (m !! key) -> q + 3 <= key)
  /\ forall (startLogits endLogits : list Q) (context : jsString) (docIndex : Z)
            (id : option jsString),
       (forall r, In r (sortedOrigResults startLogits endLogits m) ->
                  0 < AnswerIndex.start r)
       /\ exists answers kept dropped,
            getBestAnswers startLogits endLogits (Feature.origTokens f) m context
              docIndex id = Some answers
            /\ sortedOrigResults startLogits endLogits m = kept ++ dropped
            /\ Forall2 (convertedFrom (Feature.origTokens f) m context id) kept answers
            /\ ((forall i token, lookupZ (Feature.origTokens f) i = Some token ->
                                 0 < i -> 0 < Token.index token) ->
                Forall (fun a => ~ isSentinel a) answers).

(** ** Statements about the answers of a feature *)

(** [answers] are what the loop of [getBestAnswers] makes of the candidates
    [origResults], which are sorted by descending score: the answers of the
    first candidates, one for one and in their order, as far as the end of
    the list, the fifth candidate or the first candidate of a score under
    [NO_ANSWER_THRESHOLD], whichever comes first. *)
Definition decodedFrom (origTokens : list Token.t) (tokenToOrigMap : gmap Z Z)
    (context : jsString) (id : option jsString)
    (origResults : list AnswerIndex.t) (answers : list Answer.t) : Prop :=
  exists kept dropped,
    origResults = kept ++ dropped
    /\ Forall2 (answerOf origTokens tokenToOrigMap context id) kept answers
    /\ Forall (fun r => (NO_ANSWER_THRESHOLD <= AnswerIndex.score r)%Q) kept
    /\ len kept <= PREDICT_ANSWER_NUM
    /\ (dropped = []
        \/ len kept = PREDICT_ANSWER_NUM
        \/ exists r rest,
             dropped = r :: rest
             /\ (AnswerIndex.score r < NO_ANSWER_THRESHOLD)%Q).

(** [perFeature] holds one list of answers for each feature of the batch,
    in the order of the features: the list of feature [i] is decoded from
    the candidates of row [i] of the start logits, row [i] of the end logits
    and the map of feature [i]. *)
Definition answersPerFeature (logits : list (list Q) * list (list Q))
    (context : jsString) (id : option jsString) (features : list Feature.t)
    (perFeature : list (list Answer.t)) : Prop :=
  len perFeature = len features
  /\ forall (i : Z) (f : Feature.t),
       lookupZ features i = Some f ->
       exists startLogits endLogits answers,
         lookupZ logits.1 i = Some startLogits
         /\ lookupZ logits.2 i = Some endLogits
         /\ lookupZ perFeature i = Some answers
         /\ decodedFrom (Feature.origTokens f) (Feature.tokenToOrigMap f) context id
              (sortedOrigResults startLogits endLogits (Feature.tokenToOrigMap f))
              answers.

(** The decoder is reasoned about through its lemmas: it is not unfolded
    by simplification. *)
Arguments getBestIndex : simpl never.
Arguments getBestAnswers : simpl never.
Arguments sortedOrigResults : simpl never.
Arguments convertBack : simpl never.
Arguments makeFeature : simpl never.
Arguments docSpansOf : simpl never.

(** Case analysis on the comparisons of integers in the goal. *)
Ltac split_leb :=
  match goal with
  | |- context [(?x <=? ?y)%Z] => destruct (Z.leb_spec x y) as [?Hle|?Hgt]
  end.

Ltac split_ltb :=
  match goal with
  | |- context [(?x <? ?y)%Z] => destruct (Z.ltb_spec x y) as [?Hlt|?Hge]
  end.

Ltac cases_Zb := repeat first [split_leb | split_ltb].

(** ** Sorted lists *)

(** Non-increasing in the key. *)
Definition descending {A : Type} (key : A -> Q) (l : list A) : Prop :=
  StronglySorted (fun a b => (key b <= key a)%Q) l.

(** ** The configuration of the class *)

Definition MODEL_URL : jsString :=
  str "https://tfhub.dev/tensorflow/tfjs-model/mobilebert/1".

(** [fromTFHub] is optional: [None] is a field that is absent, [null] or
    [undefined]. *)
Record ModelConfig := {
  modelUrl : jsString;
  fromTFHub : option bool
}.

(** The constructor of [QuestionAndAnswerImpl], on the configuration it is
    given ([None] is [null] or [undefined]): the configuration it keeps in
    [this.modelConfig]. *)
Definition constructor (modelConfig : option ModelConfig) : ModelConfig :=
  let modelConfig :=
    match modelConfig with
    | None => {| modelUrl := MODEL_URL; fromTFHub := Some true |}
    | Some c => c
    end in
  match fromTFHub modelConfig with
  | None => {| modelUrl := modelUrl modelConfig; fromTFHub := Some false |}
  | Some _ => modelConfig
  end.

(** ** Orders on positions and candidates *)

(** [a] goes before [b] in a stable sort by descending [key] of elements
    that stood in the order of [pos]: its key is greater, or the keys are
    equal and it stood first. *)
Definition bestFirst {A : Type} (key : A -> Q) (pos : A -> Z) (a b : A) : Prop :=
  (key b < key a)%Q \/ ((key a == key b)%Q /\ pos a < pos b).

(** The sorted [tmpList] of [getBestIndex]. *)
Definition sortedLogits (logits : list Q) : list (Z * Q) :=
  jsSort (fun a b => (b.2 - a.2)%Q)
    (List.map (fun i => (i, getQ logits i)) (upto MAX_SEQ_LEN)).

Arguments sortedLogits : simpl never.

(** ** Tokens placed in a text *)

(** The tokens start at increasing offsets of a text of [n] code units and
    lie in it: what [processInput] is expected to return for such a text. *)
Definition wellPlaced (tokens : list Token.t) (n : Z) : Prop :=
  (forall (i : nat) (token : Token.t),
     nth_error tokens i = Some token ->
     0 <= Token.index token /\ Token.index token + len (Token.text token) <= n)
  /\ (forall (i : nat) (a b : Token.t),
        nth_error tokens i = Some a -> nth_error tokens (S i) = Some b ->
        Token.index a < Token.index b).

(** ** Facts on strings *)

Lemma dropWhile_idem {A : Type} (p : A -> bool) (l : list A) :
  dropWhile p (dropWhile p l) = dropWhile p l.
Proof.
  induction l as [|x l IH]; simpl; [reflexivity|].
  destruct (p x) eqn:E; [exact IH|]. simpl. now rewrite E.
Qed.

Lemma dropWhile_snoc_keep {A : Type} (p : A -> bool) (l : list A) (x : A) :
  p x = false -> dropWhile p (l ++ [x]) = dropWhile p l ++ [x].
Proof.
  intros Hx. induction l as [|y l IH]; simpl.
  - now rewrite Hx.
  - destruct (p y); [exact IH | reflexivity].
Qed.

Lemma dropWhile_head {A : Type} (p : A -> bool) (l : list A) :
  match dropWhile p l with [] => True | x :: _ => p x = false end.
Proof.
  induction l as [|y l IH]; simpl; [exact I|].
  destruct (p y) eqn:E; [exact IH | exact E].
Qed.

Lemma In_dropWhile {A : Type} (p : A -> bool) (l : list A) (x : A) :
  In x (dropWhile p l) -> In x l.
Proof.
  induction l as [|y l IH]; simpl; [tauto|].
  destruct (p y); simpl; tauto.
Qed.

Lemma In_trim (s : jsString) (c : N) : In c (trim s) -> In c s.
Proof.
  unfold trim. rewrite <- in_rev. intros H.
  apply In_dropWhile in H. rewrite <- in_rev in H.
  now apply In_dropWhile in H.
Qed.

(** A trimmed string starts with no white space. *)
Lemma trim_head_fixed (s : jsString) :
  dropWhile isWhiteSpace (trim s) = trim s.
Proof.
  unfold trim.
  pose proof (dropWhile_head isWhiteSpace s) as Hh.
  destruct (dropWhile isWhiteSpace s) as [|x m]; [reflexivity|].
  simpl rev. rewrite (dropWhile_snoc_keep _ _ _ Hh).
  rewrite rev_app_distr. simpl. now rewrite Hh.
Qed.

Lemma trim_idem (s : jsString) : trim (trim s) = trim s.
Proof.
  unfold trim at 1. rewrite trim_head_fixed.
  unfold trim. rewrite rev_involutive, dropWhile_idem. reflexivity.
Qed.

Lemma removeQuestionMarks_none (s : jsString) :
  ~ In QUESTION_MARK s -> removeQuestionMarks s = s.
Proof.
  induction s as [|c s IH]; simpl; intros H; [reflexivity|].
  destruct (N.eqb_spec c QUESTION_MARK) as [->|Hc]; simpl.
  - exfalso. apply H. now left.
  - f_equal. apply IH. tauto.
Qed.

Lemma removeQuestionMarks_clean (s : jsString) :
  ~ In QUESTION_MARK (removeQuestionMarks s).
Proof.
  unfold removeQuestionMarks. rewrite filter_In. intros [_ H].
  now rewrite N.eqb_refl in H.
Qed.

Lemma removeQuestionMarks_app (s t : jsString) :
  removeQuestionMarks (s ++ t) = removeQuestionMarks s ++ removeQuestionMarks t.
Proof. apply List.filter_app. Qed.

Lemma normalize_body_clean (q : jsString) :
  ~ In QUESTION_MARK (trim (removeQuestionMarks q)).
Proof.
  intros H. apply In_trim in H. now apply removeQuestionMarks_clean in H.
Qed.

(** C9. Question normalization (strip every question mark, trim, append one
    question mark) is idempotent, and its result ends with exactly one
    question mark: it is a string without question mark followed by one. *)
Theorem normalize_idempotent_one_mark (q : jsString) :
  normalize (normalize q) = normalize q
  /\ exists body, normalize q = body ++ [QUESTION_MARK]
                  /\ ~ In QUESTION_MARK body.
Proof.
  split.
  - unfold normalize at 1 2.
    rewrite removeQuestionMarks_app.
    rewrite (removeQuestionMarks_none _ (normalize_body_clean q)).
    simpl. rewrite app_nil_r, trim_idem. reflexivity.
  - exists (trim (removeQuestionMarks q)). split; [reflexivity|].
    apply normalize_body_clean.
Qed.
(** ** The run of [process] *)

Lemma docTokensLoop_run (self : QuestionAndAnswerImpl) (origTokens : list Token.t) :
  forall (i : Z) (st : list Z * list Z) (tr : list event),
    docTokensLoop self i origTokens st tr
    = (tr ++ List.map (fun token => EvTokenize (Token.text token)) origTokens,
       Ret (st.1 ++ originsFrom i
                      (List.map (fun token => tokenize (tokenizer self) (Token.text token))
                         origTokens),
            st.2 ++ concat
                      (List.map (fun token => tokenize (tokenizer self) (Token.text token))
                         origTokens))).
Proof.
  induction origTokens as [|token rest IH]; intros i [a b] tr; simpl.
  - unfold mret, M_ret. now rewrite !app_nil_r.
  - unfold mbind, M_bind, tokenizeM. rewrite IH. simpl.
    now rewrite <- !app_assoc.
Qed.

Lemma process_run (self : QuestionAndAnswerImpl) (query context : jsString)
    (maxQueryLen maxSeqLen docStride : Z) (tr : list event) :
  process self query context maxQueryLen maxSeqLen docStride tr
  = (tr ++ processEvents self query context maxQueryLen,
     processOutcome self query context maxQueryLen maxSeqLen docStride).
Proof.
  unfold process, processEvents, processOutcome, mbind, M_bind, tokenizeM.
  fold (normalize query). fold (queryTokensOf self query).
  destruct (len (queryTokensOf self query) >? maxQueryLen) eqn:Hlong.
  - reflexivity.
  - unfold processInputM. rewrite docTokensLoop_run. simpl.
    fold (origTokensOf self context). fold (subTokensOf self context).
    fold (allDocTokensOf self context). fold (tokenToOrigIndexOf self context).
    fold (maxContextLenOf self query maxSeqLen).
    destruct (docSpansOf _ _ _); unfold diverge, mret, M_ret;
      (apply pair_equal_spec; split; [now rewrite <- !app_assoc | reflexivity]).
Qed.

(** ** The windows *)

Lemma docSpansLoop_acc (total maxContextLen docStride : Z) (fuel : nat) :
  forall (startOffset : Z) (docSpans : list DocSpan.t),
    docSpansLoop fuel total maxContextLen docStride startOffset docSpans
    = option_map (app docSpans)
        (docSpansLoop fuel total maxContextLen docStride startOffset []).
Proof.
  induction fuel as [|fuel IH]; intros off acc; simpl; [reflexivity|].
  destruct (off <? total); simpl; [|now rewrite app_nil_r].
  match goal with |- context [DocSpan.mk off ?l] => set (length := l) end.
  destruct (off + length =? total); simpl; [reflexivity|].
  rewrite (IH _ (acc ++ _)), (IH _ [_]).
  destruct (docSpansLoop fuel _ _ _ _ []); simpl; [|reflexivity].
  now rewrite <- app_assoc.
Qed.

(** What the loop returns are windows. *)
Lemma docSpansLoop_windows (total maxContextLen docStride : Z) (fuel : nat) :
  forall (startOffset : Z) (docSpans : list DocSpan.t),
    docSpansLoop fuel total maxContextLen docStride startOffset [] = Some docSpans ->
    windows total maxContextLen docStride startOffset docSpans.
Proof.
  induction fuel as [|fuel IH]; intros off spans; simpl; [discriminate|].
  destruct (Z.ltb_spec off total) as [Hlt|Hge].
  2:{ intros [= <-]. now constructor. }
  destruct (Z.gtb_spec (total - off) maxContextLen) as [Hbig|Hsmall].
  - destruct (Z.eqb_spec (off + maxContextLen) total) as [Heq|Hne]; [lia|].
    rewrite docSpansLoop_acc.
    destruct (docSpansLoop fuel _ _ _ _ []) as [rest|] eqn:Hrest; [|discriminate].
    simpl. intros [= <-]. apply windows_next; [lia | lia | now apply IH].
  - destruct (Z.eqb_spec (off + (total - off)) total) as [Heq|Hne]; [|lia].
    intros [= <-]. apply windows_last; lia.
Qed.

(** A loop over windows of a positive width, with a positive stride, ends:
    a turn per remaining sub-word and one more are enough. *)
Lemma docSpansLoop_ends (total maxContextLen docStride : Z) :
  0 < maxContextLen -> 0 < docStride ->
  forall (fuel : nat) (startOffset : Z),
    Z.max 0 (total - startOffset) < Z.of_nat fuel ->
    exists docSpans,
      docSpansLoop fuel total maxContextLen docStride startOffset [] = Some docSpans.
Proof.
  intros Hm Hs. induction fuel as [|fuel IH]; intros off Hfuel; simpl.
  - lia.
  - destruct (Z.ltb_spec off total) as [Hlt|Hge]; [|eauto].
    destruct (Z.gtb_spec (total - off) maxContextLen) as [Hbig|Hsmall].
    + destruct (Z.eqb_spec (off + maxContextLen) total) as [Heq|Hne]; [eauto|].
      rewrite docSpansLoop_acc.
      destruct (IH (off + Z.min maxContextLen docStride)) as [rest ->]; [lia|].
      simpl. eauto.
    + destruct (Z.eqb_spec (off + (total - off)) total); [eauto|lia].
Qed.

Lemma docSpansOf_ends (total maxContextLen docStride : Z) :
  0 < maxContextLen -> 0 < docStride ->
  exists docSpans,
    docSpansOf total maxContextLen docStride = Some docSpans
    /\ windows total maxContextLen docStride 0 docSpans.
Proof.
  intros Hm Hs. unfold docSpansOf.
  destruct (docSpansLoop_ends total maxContextLen docStride Hm Hs
              (S (Z.to_nat total)) 0) as [spans H]; [lia|].
  exists spans. split; [exact H|]. now apply docSpansLoop_windows in H.
Qed.

Lemma windows_start (total maxContextLen docStride startOffset : Z)
    (docSpan : DocSpan.t) (rest : list DocSpan.t) :
  windows total maxContextLen docStride startOffset (docSpan :: rest) ->
  DocSpan.start docSpan = startOffset.
Proof. intros H. inversion H; subst; reflexivity. Qed.

Lemma windows_nonempty (total maxContextLen docStride startOffset : Z)
    (docSpans : list DocSpan.t) :
  windows total maxContextLen docStride startOffset docSpans ->
  startOffset < total -> docSpans <> [].
Proof. intros H Hlt. inversion H; subst; [lia | discriminate | discriminate]. Qed.

(** Every window is the sequence from its start on, cut to the width. *)
Lemma windows_each (total maxContextLen docStride startOffset : Z)
    (docSpans : list DocSpan.t) :
  windows total maxContextLen docStride startOffset docSpans ->
  forall docSpan, In docSpan docSpans ->
    DocSpan.start docSpan < total
    /\ DocSpan.length docSpan = Z.min (total - DocSpan.start docSpan) maxContextLen.
Proof.
  induction 1 as [off Hge | off Hlt Hfit | off rest Hlt Hbig Hrest IH];
    intros sp Hin.
  - destruct Hin.
  - destruct Hin as [<-|[]]. simpl. lia.
  - destruct Hin as [<-|Hin]; [simpl; lia | now apply IH].
Qed.

(** A window that is not the last has the full width, and the next one
    starts [min maxContextLen docStride] further. *)
Lemma windows_consecutive (total maxContextLen docStride startOffset : Z)
    (docSpans : list DocSpan.t) :
  windows total maxContextLen docStride startOffset docSpans ->
  forall (i : nat) (a b : DocSpan.t),
    nth_error docSpans i = Some a -> nth_error docSpans (S i) = Some b ->
    DocSpan.start b = DocSpan.start a + Z.min maxContextLen docStride
    /\ DocSpan.length a = maxContextLen
    /\ maxContextLen < total - DocSpan.start a.
Proof.
  induction 1 as [off Hge | off Hlt Hfit | off rest Hlt Hbig Hrest IH];
    intros i a b Ha Hb.
  - destruct i; discriminate.
  - destruct i as [|[|i]]; discriminate.
  - destruct i as [|i].
    + injection Ha as <-. simpl in Hb |- *.
      destruct rest as [|b' rest']; [discriminate|]. injection Hb as ->.
      apply windows_start in Hrest. lia.
    + simpl in Ha, Hb. now apply (IH i).
Qed.

(** The last window ends where the sequence ends. *)
Lemma windows_final (total maxContextLen docStride startOffset : Z)
    (docSpans : list DocSpan.t) :
  windows total maxContextLen docStride startOffset docSpans ->
  forall docSpan, last docSpans = Some docSpan ->
    DocSpan.start docSpan + DocSpan.length docSpan = total.
Proof.
  induction 1 as [off Hge | off Hlt Hfit | off rest Hlt Hbig Hrest IH];
    intros sp Hlast.
  - discriminate.
  - injection Hlast as <-. simpl. lia.
  - assert (rest <> []) as Hne by (apply (windows_nonempty _ _ _ _ _ Hrest); lia).
    destruct rest as [|b rest']; [congruence|]. now apply IH.
Qed.

(** With a positive width and stride, the windows lie in the sequence, none
    is empty, and each starts at or after the offset the loop started at. *)
Lemma windows_in_range (total maxContextLen docStride startOffset : Z)
    (docSpans : list DocSpan.t) :
  0 < maxContextLen -> 0 < docStride ->
  windows total maxContextLen docStride startOffset docSpans ->
  forall docSpan, In docSpan docSpans ->
    startOffset <= DocSpan.start docSpan
    /\ 0 < DocSpan.length docSpan
    /\ DocSpan.start docSpan + DocSpan.length docSpan <= total.
Proof.
  intros Hm Hs.
  induction 1 as [off Hge | off Hlt Hfit | off rest Hlt Hbig Hrest IH];
    intros sp Hin.
  - destruct Hin.
  - destruct Hin as [<-|[]]. simpl. lia.
  - destruct Hin as [<-|Hin]; [simpl; lia|].
    specialize (IH sp Hin). lia.
Qed.

Lemma windows_unique (total maxContextLen docStride startOffset : Z)
    (docSpans : list DocSpan.t) :
  windows total maxContextLen docStride startOffset docSpans ->
  forall docSpans',
    windows total maxContextLen docStride startOffset docSpans' ->
    docSpans' = docSpans.
Proof.
  induction 1 as [off Hge | off Hlt Hfit | off rest Hlt Hbig Hrest IH];
    intros spans' H'; inversion H'; subst; try lia; try reflexivity.
  f_equal. now apply IH.
Qed.

(** Windows that start at or before 0 and do not advance never reach the end
    of a sequence longer than a window: no loop yields them. *)
Lemma windows_stuck (total maxContextLen docStride startOffset : Z)
    (docSpans : list DocSpan.t) :
  windows total maxContextLen docStride startOffset docSpans ->
  startOffset <= 0 -> 0 < total -> maxContextLen < total ->
  Z.min maxContextLen docStride <= 0 -> False.
Proof.
  induction 1 as [off Hge | off Hlt Hfit | off rest Hlt Hbig Hrest IH];
    intros Hoff Htotal Hlong Hstep; [lia | lia | apply IH; lia].
Qed.

(** The fuel of [docSpansOf] is enough for every loop that ends: a loop that
    returns with some fuel returns the same with that fuel, so that [None]
    there is a loop without end. *)
Lemma docSpansLoop_fuel (total maxContextLen docStride : Z) (fuel : nat)
    (docSpans : list DocSpan.t) :
  docSpansLoop fuel total maxContextLen docStride 0 [] = Some docSpans ->
  docSpansOf total maxContextLen docStride = Some docSpans.
Proof.
  intros Hrun. pose proof (docSpansLoop_windows _ _ _ _ _ _ Hrun) as Hw.
  destruct (Z_lt_le_dec maxContextLen total) as [Hlong|Hfit].
  - destruct (Z_lt_le_dec 0 total) as [Hpos|Hnone].
    + destruct (Z_lt_le_dec 0 (Z.min maxContextLen docStride)) as [Hstep|Hstuck].
      * destruct (docSpansOf_ends total maxContextLen docStride) as (spans & Hof & Hw');
          [lia | lia |].
        now rewrite Hof, (windows_unique _ _ _ _ _ Hw _ Hw').
      * exfalso. apply (windows_stuck _ _ _ _ _ Hw); lia.
    + inversion Hw; subst; try lia. unfold docSpansOf. simpl.
      destruct (Z.ltb_spec 0 total); [lia | reflexivity].
  - unfold docSpansOf. simpl.
    destruct (Z.ltb_spec 0 total) as [Hpos|Hnone].
    + rewrite Z.sub_0_r.
      destruct (Z.gtb_spec total maxContextLen); [lia|].
      rewrite Z.eqb_refl. inversion Hw; subst; try lia.
      now rewrite Z.sub_0_r.
    + inversion Hw; subst; try lia. reflexivity.
Qed.

(** ** The feature of a window *)

Lemma len_app {A : Type} (l1 l2 : list A) : len (l1 ++ l2) = len l1 + len l2.
Proof. unfold len. rewrite List.length_app. lia. Qed.

Lemma len_cons {A : Type} (x : A) (l : list A) : len (x :: l) = len l + 1.
Proof. unfold len. simpl. lia. Qed.

Lemma len_nonneg {A : Type} (l : list A) : 0 <= len l.
Proof. unfold len. lia. Qed.

Lemma len_map {A B : Type} (f : A -> B) (l : list A) : len (List.map f l) = len l.
Proof. unfold len. now rewrite List.length_map. Qed.

Lemma len_upto (n : Z) : len (upto n) = Z.max 0 n.
Proof. unfold len, upto. rewrite List.length_map, List.length_seq. lia. Qed.

Lemma lookupZ_Some {A : Type} (l : list A) (i : Z) (x : A) :
  lookupZ l i = Some x -> 0 <= i < len l.
Proof.
  unfold lookupZ, len. destruct (Z.ltb_spec i 0) as [Hneg|Hpos]; [discriminate|].
  intros Hx. assert (nth_error l (Z.to_nat i) <> None) as Hn by congruence.
  apply nth_error_Some in Hn. lia.
Qed.

Lemma lookupZ_In {A : Type} (l : list A) (i : Z) (x : A) :
  lookupZ l i = Some x -> In x l.
Proof.
  unfold lookupZ. destruct (i <? 0); [discriminate|]. apply nth_error_In.
Qed.

Lemma lookupZ_in_range {A : Type} (l : list A) (i : Z) :
  0 <= i < len l -> exists x, lookupZ l i = Some x.
Proof.
  unfold lookupZ, len. intros Hi. destruct (Z.ltb_spec i 0); [lia|].
  destruct (nth_error l (Z.to_nat i)) as [x|] eqn:E; [eauto|].
  apply nth_error_None in E. lia.
Qed.

(** The loop of a window, from the counter [a] on for [k] turns. *)
Lemma featureLoop_run (allDocTokens tokenToOrigIndex : list Z) (docSpan : DocSpan.t)
    (k : nat) :
  forall (a : nat) (tokens segmentIds : list Z) (m : gmap Z Z),
  exists m' : gmap Z Z,
    fold_left (featureStep allDocTokens tokenToOrigIndex docSpan)
      (List.map Z.of_nat (seq a k)) (tokens, segmentIds, m)
    = (tokens ++ List.map (fun i => getZ allDocTokens (i + DocSpan.start docSpan))
                   (List.map Z.of_nat (seq a k)),
       segmentIds ++ List.map (fun _ => 1) (List.map Z.of_nat (seq a k)),
       m')
    /\ forall key : Z,
         m' !! key
         = if (len tokens + 1 <=? key) && (key <=? len tokens + Z.of_nat k)
           then Some (getZ tokenToOrigIndex
                        (key - len tokens - 1 + Z.of_nat a + DocSpan.start docSpan))
           else m !! key.
Proof.
  induction k as [|k IH]; intros a tokens segs m.
  - exists m. simpl. rewrite !app_nil_r. split; [reflexivity|].
    intros key. cases_Zb; simpl; try reflexivity; lia.
  - cbn [seq List.map fold_left].
    set (st := featureStep _ _ _ (tokens, segs, m) _).
    unfold featureStep in st. subst st.
    edestruct (IH (S a)) as (m' & Hrun & Hm'). rewrite Hrun. clear Hrun.
    exists m'. split.
    + rewrite <- !app_assoc. reflexivity.
    + intros key. rewrite Hm', len_app. change (len [_]) with 1.
      cases_Zb; simpl; try lia;
        try (rewrite lookup_insert_ne by lia; reflexivity);
        try (f_equal; f_equal; lia).
      assert (key = len tokens + 1) as -> by lia.
      rewrite lookup_insert_eq. f_equal. f_equal. lia.
Qed.

Lemma makeFeature_parts (self : QuestionAndAnswerImpl) (queryTokens : list Z)
    (origTokens : list Token.t) (allDocTokens tokenToOrigIndex : list Z)
    (maxSeqLen : Z) (docSpan : DocSpan.t) :
  let f := makeFeature self queryTokens origTokens allDocTokens tokenToOrigIndex
             maxSeqLen docSpan in
  let tokens := CLS_INDEX (tokenizer self) :: queryTokens
                ++ SEP_INDEX (tokenizer self) :: windowTokens allDocTokens docSpan
                ++ [SEP_INDEX (tokenizer self)] in
  Feature.inputIds f = tokens ++ repeat 0 (Z.to_nat (maxSeqLen - len tokens))
  /\ Feature.origTokens f = origTokens
  /\ forall key : Z,
       Feature.tokenToOrigMap f !! key
       = if (len queryTokens + 3 <=? key)
            && (key <? len queryTokens + 3 + DocSpan.length docSpan)
         then Some (getZ tokenToOrigIndex
                      (key - (len queryTokens + 3) + DocSpan.start docSpan))
         else None.
Proof.
  unfold makeFeature, upto, windowTokens.
  destruct (featureLoop_run allDocTokens tokenToOrigIndex docSpan
              (Z.to_nat (DocSpan.length docSpan)) 0
              ([CLS_INDEX (tokenizer self)] ++ queryTokens ++ [SEP_INDEX (tokenizer self)])
              ([0] ++ List.map (fun _ => 0) queryTokens ++ [0]) ∅)
    as (m' & Hrun & Hm').
  unfold upto. rewrite Hrun. cbv zeta. simpl Feature.inputIds.
  simpl Feature.origTokens. simpl Feature.tokenToOrigMap.
  split; [|split; [reflexivity|]].
  - repeat first [rewrite <- app_assoc | progress simpl]. reflexivity.
  - intros key. rewrite Hm'. simpl app. rewrite len_cons, len_app.
    change (len [_]) with 1. rewrite lookup_empty.
    cases_Zb; simpl; try lia; try reflexivity.
    f_equal. f_equal. lia.
Qed.

(** ** Sorting *)

Lemma Qpositive_sub (a b : Q) : Qpositive (b - a) = true <-> (a < b)%Q.
Proof.
  unfold Qpositive, Qlt, Qminus, Qplus, Qopp. simpl. rewrite Z.ltb_lt. lia.
Qed.

Lemma sortInsert_perm {A : Type} (compareFn : A -> A -> Q) (x : A) (l : list A) :
  Permutation (sortInsert compareFn x l) (x :: l).
Proof.
  induction l as [|y l IH]; simpl; [reflexivity|].
  destruct (Qpositive (compareFn x y)); [|reflexivity].
  rewrite IH. apply perm_swap.
Qed.

Lemma jsSort_perm {A : Type} (compareFn : A -> A -> Q) (l : list A) :
  Permutation (jsSort compareFn l) l.
Proof.
  induction l as [|x l IH]; simpl; [reflexivity|].
  rewrite sortInsert_perm. now constructor.
Qed.

Lemma jsSort_In {A : Type} (compareFn : A -> A -> Q) (l : list A) (x : A) :
  In x (jsSort compareFn l) <-> In x l.
Proof.
  split; apply Permutation_in; [|symmetry]; apply jsSort_perm.
Qed.

Lemma sortInsert_descending {A : Type} (key : A -> Q) (x : A) (l : list A) :
  descending key l ->
  descending key (sortInsert (fun a b => (key b - key a)%Q) x l).
Proof.
  unfold descending. induction l as [|y l IH]; intros Hl; simpl.
  - repeat constructor.
  - apply StronglySorted_inv in Hl. destruct Hl as [Hl Hy].
    destruct (Qpositive (key y - key x)) eqn:Hcmp.
    + apply Qpositive_sub in Hcmp. constructor; [now apply IH|].
      rewrite List.Forall_forall in *. intros z Hz.
      apply (Permutation_in _ (sortInsert_perm _ x l)) in Hz.
      destruct Hz as [<-|Hz]; [now apply Qlt_le_weak | now apply Hy].
    + assert (key y <= key x)%Q as Hle.
      { apply Qnot_lt_le. intros Hlt. apply Qpositive_sub in Hlt. congruence. }
      constructor; [now constructor|].
      constructor; [exact Hle|].
      rewrite List.Forall_forall in *. intros z Hz.
      apply Qle_trans with (key y); [now apply Hy | exact Hle].
Qed.

Lemma jsSort_descending {A : Type} (key : A -> Q) (l : list A) :
  descending key (jsSort (fun a b => (key b - key a)%Q) l).
Proof.
  induction l as [|x l IH]; simpl; [constructor|].
  now apply sortInsert_descending.
Qed.

Lemma In_firstn {A : Type} (n : nat) (l : list A) (x : A) :
  In x (firstn n l) -> In x l.
Proof.
  intros H. rewrite <- (firstn_skipn n l). apply in_or_app. now left.
Qed.

Lemma descending_firstn {A : Type} (key : A -> Q) (n : nat) (l : list A) :
  descending key l -> descending key (firstn n l).
Proof.
  unfold descending. revert n. induction l as [|x l IH]; intros n Hl.
  - now rewrite firstn_nil.
  - destruct n as [|n]; simpl; [constructor|].
    apply StronglySorted_inv in Hl. destruct Hl as [Hl Hx].
    constructor; [now apply IH|].
    rewrite List.Forall_forall in *. intros z Hz. apply Hx.
    now apply (In_firstn n).
Qed.

(** ** The decoder *)

(** The threshold is a double of the binade of 4, [m / 2^50] with a
    significand [m] of 53 bits, and the literal of the code is less than
    half a unit in the last place above it: it is the double the literal is
    read as. *)
Lemma NO_ANSWER_THRESHOLD_literal :
  let literal := (43980759382247925 # 10000000000000000)%Q in
  let m := 36893735 * 2 ^ 27 in
  2 ^ 52 <= m < 2 ^ 53
  /\ (NO_ANSWER_THRESHOLD == m # (2 ^ 50)%positive)%Q
  /\ (literal - NO_ANSWER_THRESHOLD == 1 # 51200000000000000)%Q
  /\ (literal - NO_ANSWER_THRESHOLD < 1 # (2 ^ 51)%positive)%Q.
Proof.
  cbv zeta. split; [split; vm_compute; [discriminate | reflexivity]|].
  repeat split; vm_compute; reflexivity.
Qed.

Lemma Qltb_true (x y : Q) : Qltb x y = true <-> (x < y)%Q.
Proof.
  unfold Qltb. rewrite negb_true_iff. split.
  - intros H. apply Qnot_le_lt. intros Hle. apply Qle_bool_iff in Hle. congruence.
  - intros H. destruct (Qle_bool y x) eqn:E; [|reflexivity].
    apply Qle_bool_iff in E. exfalso. now apply (Qlt_not_le _ _ H).
Qed.

Lemma Qltb_false (x y : Q) : Qltb x y = false <-> (y <= x)%Q.
Proof.
  unfold Qltb. rewrite negb_false_iff. apply Qle_bool_iff.
Qed.

Lemma truthy_Some (v : option Z) :
  truthy v = true <-> exists n, v = Some n /\ n <> 0.
Proof.
  destruct v as [n|]; simpl.
  - rewrite negb_true_iff, Z.eqb_neq. split; [eauto|]. now intros (? & [= <-] & ?).
  - split; [discriminate|]. now intros (? & ? & ?).
Qed.

(** What the two nested loops push on [origResults]. *)
Lemma In_origResultsOf (startLogits endLogits : list Q) (tokenToOrigMap : gmap Z Z)
    (startIndexes endIndexes : list Z) (r : AnswerIndex.t) :
  In r (origResultsOf startLogits endLogits tokenToOrigMap startIndexes endIndexes)
  <-> exists start end_,
        In start startIndexes /\ In end_ endIndexes
        /\ truthy (tokenToOrigMap !! (start + OUTPUT_OFFSET)) = true
        /\ truthy (tokenToOrigMap !! (end_ + OUTPUT_OFFSET)) = true
        /\ start <= end_
        /\ end_ - start + 1 < MAX_ANSWER_LEN
        /\ r = AnswerIndex.mk start end_
                 (getQ startLogits start + getQ endLogits end_)%Q.
Proof.
  unfold origResultsOf. rewrite in_flat_map. split.
  - intros (start & Hs & Hin). rewrite in_flat_map in Hin.
    destruct Hin as (end_ & He & Hin). exists start, end_.
    destruct (truthy (tokenToOrigMap !! (start + OUTPUT_OFFSET))); [|destruct Hin].
    destruct (truthy (tokenToOrigMap !! (end_ + OUTPUT_OFFSET))); [|destruct Hin].
    destruct (Z.geb_spec end_ start); [|destruct Hin]. simpl in Hin.
    destruct (Z.ltb_spec (end_ - start + 1) MAX_ANSWER_LEN); [|destruct Hin].
    destruct Hin as [<-|[]]. repeat split; try assumption; lia.
  - intros (start & end_ & Hs & He & Ts & Te & Hle & Hlen & ->).
    exists start. split; [exact Hs|]. rewrite in_flat_map. exists end_.
    split; [exact He|]. rewrite Ts, Te.
    destruct (Z.geb_spec end_ start); [|lia]. simpl.
    destruct (Z.ltb_spec (end_ - start + 1) MAX_ANSWER_LEN); [|lia]. now left.
Qed.

Lemma In_sortedOrigResults (startLogits endLogits : list Q)
    (tokenToOrigMap : gmap Z Z) (r : AnswerIndex.t) :
  In r (sortedOrigResults startLogits endLogits tokenToOrigMap)
  <-> In r (origResultsOf startLogits endLogits tokenToOrigMap
              (getBestIndex startLogits) (getBestIndex endLogits)).
Proof. unfold sortedOrigResults. apply jsSort_In. Qed.

(** The loop over the sorted candidates keeps a prefix of them: it stops at
    the end, at the fifth answer or at a score under the threshold. *)
Lemma answersLoop_kept (origTokens : list Token.t) (tokenToOrigMap : gmap Z Z)
    (context : jsString) (id : option jsString) (origResults : list AnswerIndex.t) :
  forall (i : Z) (answers : list Answer.t),
    answersLoop origTokens tokenToOrigMap context id i origResults = Some answers ->
    exists kept dropped,
      origResults = kept ++ dropped
      /\ Forall2 (answerOf origTokens tokenToOrigMap context id) kept answers
      /\ Forall (fun r => (NO_ANSWER_THRESHOLD <= AnswerIndex.score r)%Q) kept
      /\ len kept <= Z.max 0 (PREDICT_ANSWER_NUM - i)
      /\ (dropped = []
          \/ PREDICT_ANSWER_NUM <= i + len kept
          \/ exists r rest, dropped = r :: rest
                            /\ (AnswerIndex.score r < NO_ANSWER_THRESHOLD)%Q).
Proof.
  induction origResults as [|r rest IH]; intros i answers; simpl.
  - intros [= <-]. exists [], [].
    split; [reflexivity|]. split; [constructor|]. split; [constructor|].
    split; [change (len []) with 0; lia | now left].
  - destruct (Z.geb_spec i PREDICT_ANSWER_NUM) as [Hfull|Hroom]; simpl.
    { intros [= <-]. exists [], (r :: rest).
      split; [reflexivity|]. split; [constructor|]. split; [constructor|].
      change (len []) with 0. split; [lia | right; left; lia]. }
    destruct (Qltb (AnswerIndex.score r) NO_ANSWER_THRESHOLD) eqn:Hlow.
    { intros [= <-]. exists [], (r :: rest).
      split; [reflexivity|]. split; [constructor|]. split; [constructor|].
      change (len []) with 0. split; [lia|].
      right. right. exists r, rest. split; [reflexivity|].
      now apply Qltb_true. }
    apply Qltb_false in Hlow.
    destruct (if AnswerIndex.start r >? 0 then _ else _)
      as [[[convertedText startIndex] endIndex]|] eqn:Hconv; [|discriminate].
    simpl.
    destruct (answersLoop _ _ _ _ (i + 1) rest) as [others|] eqn:Hrest;
      [|discriminate].
    simpl. intros [= <-].
    destruct (IH _ _ Hrest) as (kept & dropped & -> & Hall & Hthr & Hlen & Hstop).
    exists (r :: kept), dropped.
    split; [reflexivity|]. split; [|split; [now constructor|]].
    + constructor; [|exact Hall]. unfold answerOf. simpl. now rewrite Hconv.
    + rewrite len_cons. split; [lia|].
      destruct Hstop as [->|[H5|Hs]];
        [now left | right; left; lia | right; right; exact Hs].
Qed.

(** The loop returns when every conversion it attempts does. *)
Lemma answersLoop_returns (origTokens : list Token.t) (tokenToOrigMap : gmap Z Z)
    (context : jsString) (id : option jsString) (origResults : list AnswerIndex.t) :
  (forall r, In r origResults -> 0 < AnswerIndex.start r ->
     exists res, convertBack origTokens tokenToOrigMap (AnswerIndex.start r)
                   (AnswerIndex.end_ r) context = Some res) ->
  forall i : Z,
    exists answers,
      answersLoop origTokens tokenToOrigMap context id i origResults = Some answers.
Proof.
  induction origResults as [|r rest IH]; intros Hconv i; simpl; [eauto|].
  destruct ((i >=? PREDICT_ANSWER_NUM)
            || Qltb (AnswerIndex.score r) NO_ANSWER_THRESHOLD); [eauto|].
  destruct (IH (fun r' Hin => Hconv r' (or_intror Hin)) (i + 1)) as [others ->].
  destruct (Z.gtb_spec (AnswerIndex.start r) 0) as [Hpos|Hzero].
  - destruct (Hconv r (or_introl eq_refl) Hpos) as [[[t s] e] ->]. simpl. eauto.
  - simpl. eauto.
Qed.

(** [convertBack] returns on positions whose entries are token indices
    other than 0. *)
Lemma convertBack_returns (origTokens : list Token.t) (tokenToOrigMap : gmap Z Z)
    (start end_ : Z) (context : jsString) :
  (forall key v, tokenToOrigMap !! key = Some v -> v <> 0 -> 0 <= v < len origTokens) ->
  truthy (tokenToOrigMap !! (start + OUTPUT_OFFSET)) = true ->
  truthy (tokenToOrigMap !! (end_ + OUTPUT_OFFSET)) = true ->
  exists res, convertBack origTokens tokenToOrigMap start end_ context = Some res.
Proof.
  intros Hrange Hs He.
  apply truthy_Some in Hs. destruct Hs as (vs & Hs & Hvs).
  apply truthy_Some in He. destruct He as (ve & He & Hve).
  unfold convertBack. rewrite Hs, He. simpl.
  destruct (lookupZ_in_range origTokens vs) as [ts ->]; [now apply (Hrange _ _ Hs)|].
  simpl. pose proof (Hrange _ _ He Hve) as Hr.
  destruct (Z.ltb_spec ve (len origTokens - 1)).
  - destruct (lookupZ_in_range origTokens (ve + 1)) as [tn ->]; [lia|]. simpl. eauto.
  - destruct (lookupZ_in_range origTokens ve) as [tl ->]; [lia|]. simpl. eauto.
Qed.

(** ** The run of [findAnswers] *)

Lemma findAnswers_run (self : QuestionAndAnswerImpl) (question context : jsString)
    (id : option jsString) (tr : list event) :
  findAnswers self (Some question) (Some context) id tr
  = match processOutcome self question context MAX_QUERY_LEN MAX_SEQ_LEN DOC_STRIDE with
    | Ret features =>
        (tr ++ processEvents self question context MAX_QUERY_LEN
            ++ [EvExecute (len features)],
         match batchLoop
                 (model self (List.map Feature.inputIds features)
                    (List.map Feature.segmentIds features)
                    (List.map Feature.inputMask features))
                 context id 0 features with
         | Some answers =>
             Ret (firstn (Z.to_nat PREDICT_ANSWER_NUM) (jsSort byScore (concat answers)))
         | None => Throw TypeError
         end)
    | Throw e => (tr ++ processEvents self question context MAX_QUERY_LEN, Throw e)
    | Diverge => (tr ++ processEvents self question context MAX_QUERY_LEN, Diverge)
    end.
Proof.
  unfold findAnswers, mbind, M_bind. rewrite process_run.
  destruct (processOutcome _ _ _ _ _ _) as [features|e|]; try reflexivity.
  unfold executeM. rewrite len_map, <- app_assoc.
  destruct (batchLoop _ _ _ _ _); reflexivity.
Qed.

Lemma originsFrom_range (subTokens : list (list Z)) :
  forall (i v : Z), In v (originsFrom i subTokens) -> i <= v < i + len subTokens.
Proof.
  induction subTokens as [|s rest IH]; intros i v; simpl; [tauto|].
  rewrite in_app_iff, in_map_iff, len_cons. pose proof (len_nonneg rest).
  intros [(_ & <- & _)|Hin]; [lia|]. apply IH in Hin. lia.
Qed.

Lemma featureOf_mapInRange (self : QuestionAndAnswerImpl) (query context : jsString)
    (maxSeqLen : Z) (docSpan : DocSpan.t) :
  mapInRange (featureOf self query context maxSeqLen docSpan).
Proof.
  unfold mapInRange, featureOf. intros key v.
  destruct (makeFeature_parts self (queryTokensOf self query) (origTokensOf self context)
              (allDocTokensOf self context) (tokenToOrigIndexOf self context)
              maxSeqLen docSpan) as (_ & -> & ->).
  destruct (_ && _); [|discriminate]. intros [= <-] Hv.
  unfold getZ in *.
  destruct (lookupZ _ _) as [v|] eqn:Hlook; simpl in *; [|congruence].
  apply lookupZ_In, originsFrom_range in Hlook.
  unfold subTokensOf in Hlook. rewrite len_map in Hlook. lia.
Qed.

Lemma getBestAnswers_returns (startLogits endLogits : list Q) (f : Feature.t)
    (context : jsString) (docIndex : Z) (id : option jsString) :
  mapInRange f ->
  exists answers,
    getBestAnswers startLogits endLogits (Feature.origTokens f)
      (Feature.tokenToOrigMap f) context docIndex id = Some answers.
Proof.
  intros Hrange. unfold getBestAnswers. apply answersLoop_returns.
  intros r Hin _. apply (proj1 (In_sortedOrigResults _ _ _ _)) in Hin.
  apply (proj1 (In_origResultsOf _ _ _ _ _ _)) in Hin.
  destruct Hin as (start & end_ & _ & _ & Ts & Te & _ & _ & ->).
  cbn [AnswerIndex.start AnswerIndex.end_].
  now apply convertBack_returns.
Qed.

Lemma batchLoop_returns (logits : list (list Q) * list (list Q)) (context : jsString)
    (id : option jsString) (features : list Feature.t) :
  Forall mapInRange features ->
  forall i : Z,
    0 <= i ->
    i + len features <= len logits.1 -> i + len features <= len logits.2 ->
    exists answers, batchLoop logits context id i features = Some answers.
Proof.
  induction 1 as [|f rest Hf Hrest IH]; intros i Hi H1 H2; cbn [batchLoop]; [eauto|].
  rewrite len_cons in H1, H2. pose proof (len_nonneg rest).
  destruct (lookupZ_in_range logits.1 i) as [sl ->]; [lia|].
  destruct (lookupZ_in_range logits.2 i) as [el ->]; [lia|]. cbn [mbind option_bind].
  destruct (getBestAnswers_returns sl el f context i id Hf) as [answers ->].
  destruct (IH (i + 1)) as [others ->]; [lia | lia | lia |].
  cbn [mbind option_bind]. eauto.
Qed.

(** Each list of the batch is what [getBestAnswers] returns for a feature. *)
Lemma batchLoop_each (logits : list (list Q) * list (list Q)) (context : jsString)
    (id : option jsString) (features : list Feature.t) :
  forall (i : Z) (answers : list (list Answer.t)),
    batchLoop logits context id i features = Some answers ->
    Forall2 (fun f l =>
               exists startLogits endLogits docIndex,
                 getBestAnswers startLogits endLogits (Feature.origTokens f)
                   (Feature.tokenToOrigMap f) context docIndex id = Some l)
      features answers.
Proof.
  induction features as [|f rest IH]; intros i answers; cbn [batchLoop].
  - intros [= <-]. constructor.
  - destruct (lookupZ logits.1 i) as [sl|]; [|discriminate].
    destruct (lookupZ logits.2 i) as [el|]; [|discriminate]. cbn [mbind option_bind].
    destruct (getBestAnswers sl el _ _ _ _ _) as [l|] eqn:Hl; [|discriminate].
    destruct (batchLoop _ _ _ (i + 1) rest) as [others|] eqn:Ho; [|discriminate].
    cbn [mbind option_bind]. intros [= <-].
    constructor; [eauto | now apply (IH (i + 1))].
Qed.

Lemma getBestAnswers_threshold (startLogits endLogits : list Q)
    (origTokens : list Token.t) (tokenToOrigMap : gmap Z Z) (context : jsString)
    (docIndex : Z) (id : option jsString) (answers : list Answer.t) :
  getBestAnswers startLogits endLogits origTokens tokenToOrigMap context docIndex id
  = Some answers ->
  Forall (fun a => (NO_ANSWER_THRESHOLD <= Answer.score a)%Q) answers.
Proof.
  unfold getBestAnswers. intros H. apply answersLoop_kept in H.
  destruct H as (kept & dropped & _ & Hall & Hthr & _).
  clear dropped. induction Hall as [|r a kept answers Hra Hall IH]; [constructor|].
  apply List.Forall_cons_iff in Hthr. destruct Hthr as [Hr Hthr].
  constructor; [|now apply IH].
  destruct Hra as (_ & -> & _). exact Hr.
Qed.

(** ** Errors of [findAnswers] and [process] *)

Lemma processOutcome_Throw (self : QuestionAndAnswerImpl) (query context : jsString)
    (maxQueryLen maxSeqLen docStride : Z) (e : error) :
  processOutcome self query context maxQueryLen maxSeqLen docStride = Throw e
  <-> maxQueryLen < len (queryTokensOf self query) /\ e = InputTooLong maxQueryLen.
Proof.
  unfold processOutcome.
  destruct (Z.gtb_spec (len (queryTokensOf self query)) maxQueryLen) as [Hlong|Hok].
  - split; [intros [= <-]; split; [lia | reflexivity] | now intros [_ ->]].
  - destruct (docSpansOf _ _ _); (split; [discriminate | lia]).
Qed.

(** C7. [findAnswers] fails with the error of an invalid input exactly when
    the question or the context is absent, and it does so before any call to
    the tokenizer or to the model: the calls made so far are unchanged. *)
Theorem findAnswers_invalid_input (self : QuestionAndAnswerImpl)
    (question context id : option jsString) (tr : list event) :
  ((findAnswers self question context id tr).2 = Throw InvalidInput
   <-> question = None \/ context = None)
  /\ (question = None \/ context = None ->
      findAnswers self question context id tr = (tr, Throw InvalidInput)).
Proof.
  destruct question as [question|], context as [context|];
    try (split; [split; [intros _; tauto | reflexivity] | reflexivity]).
  split; [|intros [H|H]; discriminate].
  split; [|intros [H|H]; discriminate].
  rewrite findAnswers_run.
  destruct (processOutcome _ _ _ _ _ _) as [features|e|] eqn:Hout;
    cbn [snd]; [| |discriminate].
  - destruct (batchLoop _ _ _ _ _); discriminate.
  - apply processOutcome_Throw in Hout. destruct Hout as [_ ->]. discriminate.
Qed.

Lemma featureOf_inputIds (self : QuestionAndAnswerImpl) (query context : jsString)
    (maxSeqLen : Z) (docSpan : DocSpan.t) :
  exists rest,
    Feature.inputIds (featureOf self query context maxSeqLen docSpan)
    = CLS_INDEX (tokenizer self) :: queryTokensOf self query
      ++ SEP_INDEX (tokenizer self) :: rest.
Proof.
  unfold featureOf.
  destruct (makeFeature_parts self (queryTokensOf self query) (origTokensOf self context)
              (allDocTokensOf self context) (tokenToOrigIndexOf self context)
              maxSeqLen docSpan) as (-> & _).
  eexists. cbn [app]. rewrite <- app_assoc. cbn [app]. reflexivity.
Qed.

(** C8. Feature construction fails exactly when the tokenized, normalized
    question has more than [maxQueryLen] sub-words, with the error of a
    question too long, thrown right after the question is tokenized; the
    question is never cut: every feature of a run that returns holds all the
    query tokens between the classification marker and the separator; and
    [findAnswers] ends with that error of [process], for its limit
    [MAX_QUERY_LEN], exactly when the question is that long. *)
Theorem process_input_too_long (self : QuestionAndAnswerImpl)
    (query context : jsString) (maxQueryLen maxSeqLen docStride : Z)
    (tr : list event) :
  let queryTokens := tokenize (tokenizer self) (normalize query) in
  let run := process self query context maxQueryLen maxSeqLen docStride tr in
  ((exists e, run.2 = Throw e) <-> maxQueryLen < len queryTokens)
  /\ (maxQueryLen < len queryTokens ->
      run = (tr ++ [EvTokenize (normalize query)], Throw (InputTooLong maxQueryLen)))
  /\ (forall features, run.2 = Ret features ->
        Forall (fun f => exists rest,
                  Feature.inputIds f
                  = CLS_INDEX (tokenizer self) :: queryTokens
                    ++ SEP_INDEX (tokenizer self) :: rest) features)
  /\ (forall (id : option jsString) (tr' : list event),
        (findAnswers self (Some query) (Some context) id tr').2
        = Throw (InputTooLong MAX_QUERY_LEN)
        <-> MAX_QUERY_LEN < len queryTokens).
Proof.
  cbv zeta. fold (queryTokensOf self query). rewrite process_run. cbn [snd].
  split; [|split; [|split]].
  - split.
    + intros [e He]. now apply processOutcome_Throw in He.
    + intros Hlong. exists (InputTooLong maxQueryLen).
      now apply processOutcome_Throw.
  - intros Hlong. unfold processEvents, processOutcome.
    destruct (Z.gtb_spec (len (queryTokensOf self query)) maxQueryLen); [reflexivity|lia].
  - intros features. unfold processOutcome.
    destruct (_ >? _); [discriminate|].
    destruct (docSpansOf _ _ _) as [docSpans|]; [|discriminate].
    intros [= <-]. apply List.Forall_forall. intros f Hf.
    apply in_map_iff in Hf. destruct Hf as (docSpan & <- & _).
    apply featureOf_inputIds.
  - intros id tr'. rewrite findAnswers_run.
    destruct (processOutcome _ _ _ _ _ _) as [features|e|] eqn:Hout; cbn [snd].
    + split.
      * destruct (batchLoop _ _ _ _ _); discriminate.
      * intros Hlong.
        assert (processOutcome self query context MAX_QUERY_LEN MAX_SEQ_LEN DOC_STRIDE
                = Throw (InputTooLong MAX_QUERY_LEN)) as Hthrow
          by now apply processOutcome_Throw.
        congruence.
    + apply processOutcome_Throw in Hout. destruct Hout as [Hlong ->]. tauto.
    + split; [discriminate|]. intros Hlong.
      assert (processOutcome self query context MAX_QUERY_LEN MAX_SEQ_LEN DOC_STRIDE
              = Throw (InputTooLong MAX_QUERY_LEN)) as Hthrow
        by now apply processOutcome_Throw.
      congruence.
Qed.

(** ** The features of a run that returns *)

Lemma docSpansOf_windows (total maxContextLen docStride : Z)
    (docSpans : list DocSpan.t) :
  docSpansOf total maxContextLen docStride = Some docSpans ->
  windows total maxContextLen docStride 0 docSpans.
Proof. apply docSpansLoop_windows. Qed.

Lemma processOutcome_Ret (self : QuestionAndAnswerImpl) (query context : jsString)
    (maxQueryLen maxSeqLen docStride : Z) (features : list Feature.t) :
  processOutcome self query context maxQueryLen maxSeqLen docStride = Ret features
  <-> len (queryTokensOf self query) <= maxQueryLen
      /\ exists docSpans,
           docSpansOf (len (allDocTokensOf self context))
             (maxContextLenOf self query maxSeqLen) docStride = Some docSpans
           /\ features = List.map (featureOf self query context maxSeqLen) docSpans.
Proof.
  unfold processOutcome.
  destruct (Z.gtb_spec (len (queryTokensOf self query)) maxQueryLen) as [Hlong|Hok].
  - split; [discriminate | lia].
  - destruct (docSpansOf _ _ _) as [docSpans|].
    + split.
      * intros [= <-]. split; [lia|]. now exists docSpans.
      * intros (_ & docSpans' & [= <-] & ->). reflexivity.
    + split; [discriminate|]. now intros (_ & docSpans' & [=] & _).
Qed.

(** A window is pushed only by a loop over windows of a positive width. *)
Lemma windows_positive_width (total maxContextLen docStride startOffset : Z)
    (docSpans : list DocSpan.t) :
  windows total maxContextLen docStride startOffset docSpans ->
  startOffset < total -> 0 < maxContextLen.
Proof.
  induction 1 as [off Hge | off Hlt Hfit | off rest Hlt Hbig Hrest IH];
    intros Hoff; [lia | lia |].
  destruct (Z_lt_le_dec 0 maxContextLen) as [Hpos|Hneg]; [exact Hpos|].
  apply IH. lia.
Qed.

(** The windows of a loop started at offset 0 lie in the sequence, and none
    is empty. *)
Lemma windows_zero_in_range (total maxContextLen docStride : Z)
    (docSpans : list DocSpan.t) :
  windows total maxContextLen docStride 0 docSpans ->
  forall docSpan, In docSpan docSpans ->
    0 <= DocSpan.start docSpan
    /\ 0 < DocSpan.length docSpan
    /\ DocSpan.start docSpan + DocSpan.length docSpan <= total.
Proof.
  intros Hw sp Hin.
  destruct (Z_lt_le_dec maxContextLen total) as [Hlong|Hfit].
  - destruct (Z_lt_le_dec 0 total) as [Hpos|Hnone].
    + destruct (Z_lt_le_dec 0 (Z.min maxContextLen docStride)) as [Hstep|Hstuck].
      * apply (windows_in_range total maxContextLen docStride 0 docSpans);
          [lia | lia | exact Hw | exact Hin].
      * exfalso. apply (windows_stuck _ _ _ _ _ Hw); lia.
    + inversion Hw; subst; try lia. destruct Hin.
  - inversion Hw; subst; try lia; [destruct Hin|].
    destruct Hin as [<-|[]]. simpl. lia.
Qed.

(** ** The answers of [findAnswers] *)

Lemma len_firstn_le {A : Type} (n : nat) (l : list A) : len (firstn n l) <= Z.of_nat n.
Proof. unfold len. pose proof (firstn_le_length n l). lia. Qed.

Lemma In_concat_Forall2 {A B : Type} (P : A -> list B -> Prop) (Q' : B -> Prop)
    (xs : list A) (ls : list (list B)) :
  Forall2 P xs ls -> (forall x l, P x l -> Forall Q' l) ->
  Forall Q' (concat ls).
Proof.
  intros H HP. induction H as [|x l xs ls Hxl _ IH]; simpl; [constructor|].
  apply List.Forall_app. split; [now apply (HP x) | exact IH].
Qed.

Lemma lookupZ_head {A : Type} (x : A) (l : list A) : lookupZ (x :: l) 0 = Some x.
Proof. reflexivity. Qed.

Lemma lookupZ_tail {A : Type} (x : A) (l : list A) (i : Z) :
  0 < i -> lookupZ (x :: l) i = lookupZ l (i - 1).
Proof.
  intros Hi. unfold lookupZ.
  destruct (Z.ltb_spec i 0); [lia|]. destruct (Z.ltb_spec (i - 1) 0); [lia|].
  replace (Z.to_nat i) with (S (Z.to_nat (i - 1))) by lia. reflexivity.
Qed.

(** What [getBestAnswers] returns is decoded from its sorted candidates. *)
Lemma getBestAnswers_decoded (startLogits endLogits : list Q)
    (origTokens : list Token.t) (tokenToOrigMap : gmap Z Z) (context : jsString)
    (docIndex : Z) (id : option jsString) (answers : list Answer.t) :
  getBestAnswers startLogits endLogits origTokens tokenToOrigMap context docIndex id
  = Some answers ->
  decodedFrom origTokens tokenToOrigMap context id
    (sortedOrigResults startLogits endLogits tokenToOrigMap) answers.
Proof.
  unfold getBestAnswers. intros Hrun. apply answersLoop_kept in Hrun.
  destruct Hrun as (kept & dropped & Hsplit & Hall & Hthr & Hlen & Hstop).
  exists kept, dropped. unfold PREDICT_ANSWER_NUM in *.
  split; [exact Hsplit|]. split; [exact Hall|]. split; [exact Hthr|]. split; [lia|].
  destruct Hstop as [Hnil|[Hfive|Hlow]];
    [left; exact Hnil | right; left; lia | right; right; exact Hlow].
Qed.

(** The loop over the batch, from row [i] on: the list it pushes for the
    feature [k] of those left is decoded from the rows [i + k] of the
    logits and the map of that feature. *)
Lemma batchLoop_rows (logits : list (list Q) * list (list Q)) (context : jsString)
    (id : option jsString) (features : list Feature.t) :
  forall (i : Z) (perFeature : list (list Answer.t)),
    0 <= i ->
    batchLoop logits context id i features = Some perFeature ->
    len perFeature = len features
    /\ forall (k : Z) (f : Feature.t),
         lookupZ features k = Some f ->
         exists startLogits endLogits answers,
           lookupZ logits.1 (i + k) = Some startLogits
           /\ lookupZ logits.2 (i + k) = Some endLogits
           /\ lookupZ perFeature k = Some answers
           /\ decodedFrom (Feature.origTokens f) (Feature.tokenToOrigMap f) context id
                (sortedOrigResults startLogits endLogits (Feature.tokenToOrigMap f))
                answers.
Proof.
  induction features as [|f rest IH]; intros i perFeature Hi; cbn [batchLoop].
  - intros [= <-]. split; [reflexivity|]. intros k f Hk.
    apply lookupZ_Some in Hk. unfold len in Hk. cbn [List.length] in Hk. lia.
  - destruct (lookupZ logits.1 i) as [sl|] eqn:Hsl; [|discriminate].
    destruct (lookupZ logits.2 i) as [el|] eqn:Hel; [|discriminate].
    cbn [mbind option_bind].
    destruct (getBestAnswers sl el _ _ _ _ _) as [l|] eqn:Hl; [|discriminate].
    destruct (batchLoop _ _ _ (i + 1) rest) as [others|] eqn:Ho; [|discriminate].
    cbn [mbind option_bind]. intros [= <-].
    assert (0 <= i + 1) as Hi1 by lia.
    destruct (IH (i + 1) others Hi1 Ho) as [Hlen Hrows].
    split; [rewrite !len_cons; lia|].
    intros k f' Hk. destruct (Z.eq_dec k 0) as [->|Hk0].
    + rewrite lookupZ_head in Hk. injection Hk as <-. rewrite Z.add_0_r.
      exists sl, el, l. split; [exact Hsl|]. split; [exact Hel|].
      split; [apply lookupZ_head|].
      exact (getBestAnswers_decoded _ _ _ _ _ _ _ _ Hl).
    + pose proof (lookupZ_Some _ _ _ Hk) as Hrange.
      rewrite lookupZ_tail in Hk by lia.
      destruct (Hrows _ _ Hk) as (sl' & el' & l' & H1 & H2 & H3 & H4).
      exists sl', el', l'.
      replace (i + k) with (i + 1 + (k - 1)) by lia.
      split; [exact H1|]. split; [exact H2|]. split; [|exact H4].
      rewrite lookupZ_tail by lia. exact H3.
Qed.

Lemma batchLoop_answersPerFeature (logits : list (list Q) * list (list Q))
    (context : jsString) (id : option jsString) (features : list Feature.t)
    (perFeature : list (list Answer.t)) :
  batchLoop logits context id 0 features = Some perFeature ->
  answersPerFeature logits context id features perFeature.
Proof.
  intros Hbatch.
  destruct (batchLoop_rows logits context id features 0 perFeature (Z.le_refl 0) Hbatch)
    as [Hlen Hrows].
  split; [exact Hlen|]. intros i f Hf. exact (Hrows i f Hf).
Qed.

(** C6. A call of [findAnswers] with a question and a context, whose
    question is not too long, returns. Each feature has its list of answers,
    decoded from its own candidates: the candidates of its rows of logits,
    sorted by descending score, kept as far as the fifth one or the first
    one of a score under [NO_ANSWER_THRESHOLD]. What the call returns are
    the first [PREDICT_ANSWER_NUM] of these lists concatenated and sorted by
    descending score, whatever the window an answer comes from: at most 5
    answers, in non-increasing order of score, each of a score that is at
    least [NO_ANSWER_THRESHOLD]. *)
Theorem findAnswers_top_answers (self : QuestionAndAnswerImpl)
    (question context : jsString) (id : option jsString) (tr : list event) :
  modelShape (model self) ->
  len (queryTokensOf self question) <= MAX_QUERY_LEN ->
  exists features perFeature sorted answers tr',
    (process self question context MAX_QUERY_LEN MAX_SEQ_LEN DOC_STRIDE tr).2
    = Ret features
    /\ answersPerFeature
         (model self (List.map Feature.inputIds features)
            (List.map Feature.segmentIds features)
            (List.map Feature.inputMask features))
         context id features perFeature
    /\ sorted = jsSort byScore (concat perFeature)
    /\ Permutation sorted (concat perFeature)
    /\ descending Answer.score sorted
    /\ answers = firstn (Z.to_nat PREDICT_ANSWER_NUM) sorted
    /\ findAnswers self (Some question) (Some context) id tr = (tr', Ret answers)
    /\ len answers <= PREDICT_ANSWER_NUM
    /\ descending Answer.score answers
    /\ Forall (fun a => (NO_ANSWER_THRESHOLD <= Answer.score a)%Q) answers.
Proof.
  intros Hshape Hquery.
  destruct (docSpansOf_ends (len (allDocTokensOf self context))
              (maxContextLenOf self question MAX_SEQ_LEN) DOC_STRIDE)
    as (docSpans & Hspans & _).
  { unfold maxContextLenOf, MAX_SEQ_LEN, MAX_QUERY_LEN in *. lia. }
  { reflexivity. }
  set (features := List.map (featureOf self question context MAX_SEQ_LEN) docSpans).
  assert (processOutcome self question context MAX_QUERY_LEN MAX_SEQ_LEN DOC_STRIDE
          = Ret features) as Hout.
  { apply processOutcome_Ret. split; [exact Hquery|]. now exists docSpans. }
  assert (Forall mapInRange features) as Hrange.
  { apply List.Forall_forall. intros f Hf. apply in_map_iff in Hf.
    destruct Hf as (docSpan & <- & _). apply featureOf_mapInRange. }
  set (logits := model self (List.map Feature.inputIds features)
                   (List.map Feature.segmentIds features)
                   (List.map Feature.inputMask features)).
  destruct (Hshape (List.map Feature.inputIds features)
              (List.map Feature.segmentIds features)
              (List.map Feature.inputMask features)) as (Hrows1 & Hrows2 & _).
  fold logits in Hrows1, Hrows2. rewrite List.length_map in Hrows1, Hrows2.
  destruct (batchLoop_returns logits context id features Hrange 0) as [perFeature Hbatch];
    [lia | unfold len; lia | unfold len; lia |].
  exists features, perFeature, (jsSort byScore (concat perFeature)).
  eexists. eexists.
  rewrite process_run, findAnswers_run, Hout. cbn [snd]. fold logits. rewrite Hbatch.
  split; [reflexivity|].
  split; [exact (batchLoop_answersPerFeature _ _ _ _ _ Hbatch)|].
  split; [reflexivity|]. split; [apply jsSort_perm|].
  split; [apply (jsSort_descending Answer.score)|].
  split; [reflexivity|]. split; [reflexivity|]. split; [|split].
  - apply (len_firstn_le (Z.to_nat PREDICT_ANSWER_NUM)).
  - apply descending_firstn. apply (jsSort_descending Answer.score).
  - apply List.Forall_forall. intros a Ha. apply In_firstn in Ha.
    apply (proj1 (jsSort_In _ _ _)) in Ha. revert a Ha. apply List.Forall_forall.
    apply (In_concat_Forall2 _ _ _ _ (batchLoop_each _ _ _ _ _ _ Hbatch)).
    intros f l (sl & el & docIndex & Hl). now apply getBestAnswers_threshold in Hl.
Qed.

(** ** The branch of the "no answer" value *)

Lemma Forall2_impl_In {A B : Type} (P R : A -> B -> Prop) (l : list A) (l' : list B) :
  (forall x y, In x l -> P x y -> R x y) -> Forall2 P l l' -> Forall2 R l l'.
Proof.
  intros HPR H. induction H as [|x y l l' Hxy _ IH]; constructor.
  - apply HPR; [now left | exact Hxy].
  - apply IH. intros x' y' Hin. apply HPR. now right.
Qed.

Lemma Forall2_Forall_r {A B : Type} (P : A -> B -> Prop) (R : B -> Prop)
    (l : list A) (l' : list B) :
  (forall x y, In x l -> P x y -> R y) -> Forall2 P l l' -> Forall R l'.
Proof.
  intros HPR H. induction H as [|x y l l' Hxy _ IH]; constructor.
  - apply (HPR x); [now left | exact Hxy].
  - apply IH. intros x' y' Hin. apply HPR. now right.
Qed.

(** The start offset [convertBack] returns is the offset of the token that
    the map gives for the start position. *)
Lemma convertBack_start (origTokens : list Token.t) (tokenToOrigMap : gmap Z Z)
    (start end_ : Z) (context text : jsString) (startIndex endIndex : Z) :
  convertBack origTokens tokenToOrigMap start end_ context
  = Some (text, startIndex, endIndex) ->
  exists v token,
    tokenToOrigMap !! (start + OUTPUT_OFFSET) = Some v
    /\ lookupZ origTokens v = Some token
    /\ startIndex = Token.index token.
Proof.
  unfold convertBack.
  destruct (tokenToOrigMap !! (start + OUTPUT_OFFSET)) as [v|] eqn:Hv; [|discriminate].
  cbn [mbind option_bind].
  destruct (lookupZ origTokens v) as [token|] eqn:Htoken; [|discriminate].
  cbn [mbind option_bind].
  destruct (match tokenToOrigMap !! (end_ + OUTPUT_OFFSET) with
            | Some _ => _ | None => _ end) as [endCharIndex|]; [|discriminate].
  cbn [mbind option_bind]. intros [= <- <- <-]. now exists v, token.
Qed.

Lemma featureOf_map (self : QuestionAndAnswerImpl) (query context : jsString)
    (maxSeqLen : Z) (docSpan : DocSpan.t) (key : Z) :
  Feature.tokenToOrigMap (featureOf self query context maxSeqLen docSpan) !! key
  = if (len (queryTokensOf self query) + 3 <=? key)
       && (key <? len (queryTokensOf self query) + 3 + DocSpan.length docSpan)
    then Some (getZ (tokenToOrigIndexOf self context)
                 (key - (len (queryTokensOf self query) + 3) + DocSpan.start docSpan))
    else None.
Proof.
  unfold featureOf.
  now destruct (makeFeature_parts self (queryTokensOf self query)
                  (origTokensOf self context) (allDocTokensOf self context)
                  (tokenToOrigIndexOf self context) maxSeqLen docSpan) as (_ & _ & ->).
Qed.

Lemma featureOf_map_key (self : QuestionAndAnswerImpl) (query context : jsString)
    (maxSeqLen : Z) (docSpan : DocSpan.t) (key : Z) :
  is_Some (Feature.tokenToOrigMap (featureOf self query context maxSeqLen docSpan)
             !! key)
  <-> len (queryTokensOf self query) + 3 <= key
      < len (queryTokensOf self query) + 3 + DocSpan.length docSpan.
Proof.
  rewrite featureOf_map. cases_Zb; simpl; split; try lia; eauto;
    intros [v Hv]; discriminate.
Qed.

Lemma decodesWithoutSentinel_intro (self : QuestionAndAnswerImpl) (query : jsString)
    (f : Feature.t) (width : Z) :
  0 < width ->
  (forall key, is_Some (Feature.tokenToOrigMap f !! key)
               <-> len (queryTokensOf self query) + 3 <= key
                   < len (queryTokensOf self query) + 3 + width) ->
  mapInRange f ->
  decodesWithoutSentinel self query f.
Proof.
  intros Hwidth Hkeys Hrange. unfold decodesWithoutSentinel. cbv zeta.
  pose proof (len_nonneg (queryTokensOf self query)) as Hq.
  assert (forall sl el r, In r (sortedOrigResults sl el (Feature.tokenToOrigMap f)) ->
            0 < AnswerIndex.start r
            /\ truthy (Feature.tokenToOrigMap f !! (AnswerIndex.start r + OUTPUT_OFFSET))
               = true) as Hcand.
  { intros sl el r Hin. apply (proj1 (In_sortedOrigResults _ _ _ _)) in Hin.
    apply (proj1 (In_origResultsOf _ _ _ _ _ _)) in Hin.
    destruct Hin as (start & end_ & _ & _ & Ts & _ & _ & _ & ->).
    cbn [AnswerIndex.start]. split; [|exact Ts].
    apply truthy_Some in Ts. destruct Ts as (v & Hv & _).
    assert (is_Some (Feature.tokenToOrigMap f !! (start + OUTPUT_OFFSET))) as Hkey
      by (rewrite Hv; eauto).
    apply Hkeys in Hkey. unfold OUTPUT_OFFSET in Hkey. lia. }
  split; [apply Hkeys; lia|].
  split; [intros key Hkey; apply Hkeys in Hkey; lia|].
  intros sl el ctx docIndex id. split; [intros r Hin; exact (proj1 (Hcand sl el r Hin))|].
  destruct (getBestAnswers_returns sl el f ctx docIndex id Hrange)
    as [answers Hanswers].
  pose proof Hanswers as Hloop. unfold getBestAnswers in Hloop.
  apply answersLoop_kept in Hloop.
  destruct Hloop as (kept & dropped & Hsplit & Hall & _).
  exists answers, kept, dropped.
  split; [exact Hanswers|]. split; [exact Hsplit|].
  assert (forall r, In r kept ->
            0 < AnswerIndex.start r
            /\ truthy (Feature.tokenToOrigMap f !! (AnswerIndex.start r + OUTPUT_OFFSET))
               = true) as Hkept.
  { intros r Hin. apply (Hcand sl el). rewrite Hsplit. apply in_or_app. now left. }
  assert (Forall2 (convertedFrom (Feature.origTokens f) (Feature.tokenToOrigMap f) ctx id)
            kept answers) as Hconv.
  { revert Hall. apply Forall2_impl_In. intros r a Hin Hra.
    destruct (Hkept r Hin) as [Hpos _]. unfold answerOf in Hra.
    destruct (Z.gtb_spec (AnswerIndex.start r) 0); [|lia].
    destruct Hra as (Hcb & Hs & Hc & Hi). unfold convertedFrom. tauto. }
  split; [exact Hconv|].
  intros Htokens. revert Hconv. apply Forall2_Forall_r. intros r a Hin Hra.
  destruct (Hkept r Hin) as [_ Htruthy].
  destruct Hra as (_ & Hcb & _). apply convertBack_start in Hcb.
  destruct Hcb as (v & token & Hv & Htoken & Hstart).
  apply truthy_Some in Htruthy. destruct Htruthy as (v' & Hv' & Hnz).
  assert (v' = v) as -> by congruence.
  pose proof (lookupZ_Some _ _ _ Htoken) as Hv_range.
  assert (0 < v) as Hvpos by lia.
  specialize (Htokens v token Htoken Hvpos).
  intros (_ & Hzero & _). lia.
Qed.

(** C10. The branch of the "no answer" value is never taken on a feature
    that [process] returns: the least key of its map is
    [queryTokens.length + 3], so no candidate starts at position 0, every
    answer of [getBestAnswers] is the conversion by [convertBack] of a
    candidate that starts after 0, and no answer is the "no answer" value
    (as tokens other than the first start after offset 0). *)
Theorem sentinel_branch_unreachable (self : QuestionAndAnswerImpl)
    (query context : jsString) (maxQueryLen maxSeqLen docStride : Z)
    (tr : list event) (features : list Feature.t) :
  (process self query context maxQueryLen maxSeqLen docStride tr).2 = Ret features ->
  Forall (decodesWithoutSentinel self query) features.
Proof.
  rewrite process_run. cbn [snd]. intros Hout.
  apply processOutcome_Ret in Hout. destruct Hout as (_ & docSpans & Hspans & ->).
  apply docSpansOf_windows in Hspans.
  apply List.Forall_forall. intros f Hf. apply in_map_iff in Hf.
  destruct Hf as (docSpan & <- & Hin).
  apply (decodesWithoutSentinel_intro _ _ _ (DocSpan.length docSpan)).
  - now apply (windows_zero_in_range _ _ _ _ Hspans docSpan Hin).
  - intros key. apply featureOf_map_key.
  - apply featureOf_mapInRange.
Qed.

(** ** The map of a feature *)

Lemma lookupZ_app_l {A : Type} (l1 l2 : list A) (i : Z) :
  i < len l1 -> lookupZ (l1 ++ l2) i = lookupZ l1 i.
Proof.
  unfold lookupZ, len. intros Hi. destruct (Z.ltb_spec i 0); [reflexivity|].
  apply nth_error_app1. lia.
Qed.

Lemma lookupZ_app_r {A : Type} (l1 l2 : list A) (i : Z) :
  0 <= i -> lookupZ (l1 ++ l2) (len l1 + i) = lookupZ l2 i.
Proof.
  unfold lookupZ, len. intros Hi.
  destruct (Z.ltb_spec (Z.of_nat (List.length l1) + i) 0); [lia|].
  destruct (Z.ltb_spec i 0); [lia|].
  rewrite nth_error_app2 by lia. f_equal. lia.
Qed.

Lemma lookupZ_map_upto {A : Type} (g : Z -> A) (n i : Z) :
  0 <= i < n -> lookupZ (List.map g (upto n)) i = Some (g i).
Proof.
  unfold lookupZ, upto. intros Hi. destruct (Z.ltb_spec i 0); [lia|].
  rewrite !nth_error_map, nth_error_seq.
  destruct (Nat.ltb_spec (Z.to_nat i) (Z.to_nat n)); [|lia].
  simpl. f_equal. f_equal. lia.
Qed.

Lemma getZ_lookupZ (l : list Z) (i v : Z) : lookupZ l i = Some v -> getZ l i = v.
Proof. unfold getZ. now intros ->. Qed.

Lemma len_originsFrom (subTokens : list (list Z)) :
  forall i, len (originsFrom i subTokens) = len (concat subTokens).
Proof.
  induction subTokens as [|s rest IH]; intros i; simpl; [reflexivity|].
  now rewrite !len_app, len_map, IH.
Qed.

Lemma len_tokenToOrigIndexOf (self : QuestionAndAnswerImpl) (context : jsString) :
  len (tokenToOrigIndexOf self context) = len (allDocTokensOf self context).
Proof. apply len_originsFrom. Qed.

Lemma featureOf_inputIds_window (self : QuestionAndAnswerImpl)
    (query context : jsString) (maxSeqLen : Z) (docSpan : DocSpan.t) :
  exists rest,
    Feature.inputIds (featureOf self query context maxSeqLen docSpan)
    = (CLS_INDEX (tokenizer self) :: queryTokensOf self query
       ++ [SEP_INDEX (tokenizer self)])
      ++ windowTokens (allDocTokensOf self context) docSpan ++ rest.
Proof.
  unfold featureOf.
  destruct (makeFeature_parts self (queryTokensOf self query) (origTokensOf self context)
              (allDocTokensOf self context) (tokenToOrigIndexOf self context)
              maxSeqLen docSpan) as (-> & _).
  eexists. cbn [app]. rewrite <- !app_assoc. cbn [app]. rewrite <- !app_assoc.
  reflexivity.
Qed.

(** The feature of a window that lies in the sequence keeps, for each
    sub-word of the window, the index of its token under the position that
    follows the sub-word's. *)
Lemma featureOf_mapKeyedAt (self : QuestionAndAnswerImpl) (query context : jsString)
    (maxSeqLen : Z) (docSpan : DocSpan.t) :
  0 <= DocSpan.start docSpan ->
  DocSpan.start docSpan + DocSpan.length docSpan <= len (allDocTokensOf self context) ->
  mapKeyedAt OUTPUT_OFFSET self query context docSpan
    (featureOf self query context maxSeqLen docSpan).
Proof.
  intros Hstart Hend. unfold mapKeyedAt, OUTPUT_OFFSET. cbv zeta.
  pose proof (len_nonneg (queryTokensOf self query)) as Hq.
  split.
  - intros i Hi.
    destruct (lookupZ_in_range (allDocTokensOf self context) (DocSpan.start docSpan + i))
      as [token Htoken]; [lia|].
    destruct (lookupZ_in_range (tokenToOrigIndexOf self context)
                (DocSpan.start docSpan + i)) as [origin Horigin];
      [rewrite len_tokenToOrigIndexOf; lia|].
    split; [rewrite Htoken; eauto|]. split.
    + destruct (featureOf_inputIds_window self query context maxSeqLen docSpan)
        as [rest ->].
      rewrite Htoken.
      replace (len (queryTokensOf self query) + 2 + i)
        with (len (CLS_INDEX (tokenizer self) :: queryTokensOf self query
                   ++ [SEP_INDEX (tokenizer self)]) + i)
        by (rewrite len_cons, len_app; change (len [_]) with 1; lia).
      rewrite lookupZ_app_r by lia.
      rewrite lookupZ_app_l by (unfold windowTokens; rewrite len_map, len_upto; lia).
      unfold windowTokens. rewrite lookupZ_map_upto by lia.
      f_equal. apply getZ_lookupZ. now rewrite Z.add_comm.
    + rewrite featureOf_map, Horigin.
      cases_Zb; simpl; try lia. f_equal. apply getZ_lookupZ.
      rewrite <- Horigin. f_equal. lia.
  - intros key Hkey. apply featureOf_map_key in Hkey.
    exists (key - (len (queryTokensOf self query) + 3)). lia.
Qed.

Lemma Forall2_map_r {A B : Type} (P : A -> B -> Prop) (g : A -> B) (l : list A) :
  (forall x, In x l -> P x (g x)) -> Forall2 P l (List.map g l).
Proof.
  induction l as [|x l IH]; intros H; simpl; constructor.
  - apply H. now left.
  - apply IH. intros y Hy. apply H. now right.
Qed.

(** C2, as the code has it. For every feature that [process] returns and
    every sub-word of its window, [tokenToOrigMap] maps the position that
    follows the sub-word's position in the assembled sequence (its position
    plus [OUTPUT_OFFSET]) to the index of the token the sub-word comes from,
    and the map has entries at such keys only: the keys are the positions of
    the passage sub-words but the first, and the position of the separator
    that follows them. *)
Theorem tokenToOrigMap_keyed_after_position (self : QuestionAndAnswerImpl)
    (query context : jsString) (maxQueryLen maxSeqLen docStride : Z)
    (tr : list event) (features : list Feature.t) :
  (process self query context maxQueryLen maxSeqLen docStride tr).2 = Ret features ->
  exists docSpans,
    docSpansOf (len (allDocTokensOf self context))
      (maxContextLenOf self query maxSeqLen) docStride = Some docSpans
    /\ Forall2 (mapKeyedAt OUTPUT_OFFSET self query context) docSpans features.
Proof.
  rewrite process_run. cbn [snd]. intros Hout.
  apply processOutcome_Ret in Hout. destruct Hout as (_ & docSpans & Hspans & ->).
  exists docSpans. split; [exact Hspans|].
  apply docSpansOf_windows in Hspans.
  apply Forall2_map_r. intros docSpan Hin.
  destruct (windows_zero_in_range _ _ _ _ Hspans docSpan Hin) as (H0 & _ & Hend).
  now apply featureOf_mapKeyedAt.
Qed.

(** ** The windows of a passage *)

(** A window over the whole sequence holds the whole sequence. *)
Lemma windowTokens_whole (allDocTokens : list Z) :
  windowTokens allDocTokens (DocSpan.mk 0 (len allDocTokens)) = allDocTokens.
Proof.
  unfold windowTokens, upto, len. cbn [DocSpan.start DocSpan.length].
  apply nth_error_ext. intros n.
  rewrite !nth_error_map, nth_error_seq, Nat2Z.id.
  destruct (Nat.ltb_spec n (List.length allDocTokens)) as [Hn|Hn]; simpl.
  - unfold getZ, lookupZ.
    destruct (Z.ltb_spec (Z.of_nat n + 0) 0); [lia|].
    rewrite Z.add_0_r, Nat2Z.id.
    destruct (nth_error allDocTokens n) eqn:E; [reflexivity|].
    apply nth_error_None in E. lia.
  - symmetry. now apply nth_error_None.
Qed.

Lemma docSpansOf_whole (total maxContextLen docStride : Z) :
  0 < total -> total <= maxContextLen ->
  docSpansOf total maxContextLen docStride = Some [DocSpan.mk 0 total].
Proof.
  intros Hpos Hfit. unfold docSpansOf. cbn [docSpansLoop].
  destruct (Z.ltb_spec 0 total); [|lia]. rewrite Z.sub_0_r.
  destruct (Z.gtb_spec total maxContextLen); [lia|].
  now rewrite Z.add_0_l, Z.eqb_refl.
Qed.

(** C4, as the code has it. For every passage whose sequence of sub-words is
    not empty and is shorter than [maxContextLen], feature construction (of
    a question that is not too long) returns exactly one feature; its window
    starts at offset 0 and holds the whole sequence of sub-words. *)
Theorem short_passage_one_feature (self : QuestionAndAnswerImpl)
    (query context : jsString) (maxQueryLen maxSeqLen docStride : Z)
    (tr : list event) :
  len (queryTokensOf self query) <= maxQueryLen ->
  0 < len (allDocTokensOf self context) ->
  len (allDocTokensOf self context) < maxContextLenOf self query maxSeqLen ->
  let whole := DocSpan.mk 0 (len (allDocTokensOf self context)) in
  docSpansOf (len (allDocTokensOf self context))
    (maxContextLenOf self query maxSeqLen) docStride = Some [whole]
  /\ (process self query context maxQueryLen maxSeqLen docStride tr).2
     = Ret [featureOf self query context maxSeqLen whole]
  /\ windowTokens (allDocTokensOf self context) whole = allDocTokensOf self context.
Proof.
  intros Hquery Hpos Hshort. cbv zeta.
  assert (docSpansOf (len (allDocTokensOf self context))
            (maxContextLenOf self query maxSeqLen) docStride
          = Some [DocSpan.mk 0 (len (allDocTokensOf self context))]) as Hspans
    by (apply docSpansOf_whole; lia).
  split; [exact Hspans|]. split; [|apply windowTokens_whole].
  rewrite process_run. cbn [snd]. apply processOutcome_Ret.
  split; [exact Hquery|]. eexists. split; [exact Hspans | reflexivity].
Qed.

Lemma windows_covering (total maxContextLen docStride : Z) (docSpans : list DocSpan.t) :
  0 < total -> 0 < maxContextLen -> 0 < docStride ->
  windows total maxContextLen docStride 0 docSpans ->
  covering total docSpans.
Proof.
  intros Hpos Hm Hs Hw. unfold covering. split; [|split; [|split]].
  - pose proof (windows_nonempty _ _ _ _ _ Hw Hpos) as Hne.
    destruct docSpans as [|first rest]; [congruence|].
    exists first, rest. split; [reflexivity|]. now apply windows_start in Hw.
  - now apply windows_zero_in_range with (1 := Hw).
  - intros i a b Ha Hb.
    destruct (windows_consecutive _ _ _ _ _ Hw i a b Ha Hb) as (-> & -> & _). lia.
  - now apply windows_final with (1 := Hw).
Qed.

(** The windows of a run of [process] on a passage with at least one
    sub-word, with windows of a positive width and a positive stride: they
    cover the sequence, each window before the last has the full width, and
    each window starts [min maxContextLen docStride] sub-words after the one
    before it. *)
Lemma process_windows (self : QuestionAndAnswerImpl)
    (query context : jsString) (maxQueryLen maxSeqLen docStride : Z)
    (tr : list event) :
  len (queryTokensOf self query) <= maxQueryLen ->
  0 < len (allDocTokensOf self context) ->
  0 < maxContextLenOf self query maxSeqLen ->
  0 < docStride ->
  exists docSpans,
    docSpansOf (len (allDocTokensOf self context))
      (maxContextLenOf self query maxSeqLen) docStride = Some docSpans
    /\ (process self query context maxQueryLen maxSeqLen docStride tr).2
       = Ret (List.map (featureOf self query context maxSeqLen) docSpans)
    /\ covering (len (allDocTokensOf self context)) docSpans
    /\ advancesBy (Z.min (maxContextLenOf self query maxSeqLen) docStride) docSpans
    /\ (forall (i : nat) (a : DocSpan.t),
          nth_error docSpans i = Some a -> (S i < List.length docSpans)%nat ->
          DocSpan.length a = maxContextLenOf self query maxSeqLen).
Proof.
  intros Hquery Hpos Hm Hs.
  destruct (docSpansOf_ends (len (allDocTokensOf self context))
              (maxContextLenOf self query maxSeqLen) docStride Hm Hs)
    as (docSpans & Hspans & Hw).
  exists docSpans. split; [exact Hspans|].
  split; [|split; [now apply (windows_covering _ _ _ _ Hpos Hm Hs Hw)|split]].
  - rewrite process_run. cbn [snd]. apply processOutcome_Ret.
    split; [exact Hquery|]. now exists docSpans.
  - intros i a b Ha Hb.
    now destruct (windows_consecutive _ _ _ _ _ Hw i a b Ha Hb) as (-> & _).
  - intros i a Ha Hi.
    destruct (nth_error docSpans (S i)) as [b|] eqn:Hb.
    + now destruct (windows_consecutive _ _ _ _ _ Hw i a b Ha Hb) as (_ & -> & _).
    + apply nth_error_None in Hb. lia.
Qed.

(** C5. For every passage with at least one sub-word, feature construction
    (of a question that is not too long, with a positive stride that is no
    more than the width [maxContextLen] of a window) returns the features of
    windows that cover the sequence of sub-words: the first starts at 0, the
    last one ends where the sequence ends, each window before the last has
    the full width, and each window, the last one too, starts exactly
    [docStride] sub-words after the one before it. The stride is within the
    width for every call [findAnswers] makes (lemma
    [findAnswers_stride_within_width]). *)
Theorem windows_cover_and_advance (self : QuestionAndAnswerImpl)
    (query context : jsString) (maxQueryLen maxSeqLen docStride : Z)
    (tr : list event) :
  len (queryTokensOf self query) <= maxQueryLen ->
  0 < len (allDocTokensOf self context) ->
  0 < docStride <= maxContextLenOf self query maxSeqLen ->
  exists docSpans,
    docSpansOf (len (allDocTokensOf self context))
      (maxContextLenOf self query maxSeqLen) docStride = Some docSpans
    /\ (process self query context maxQueryLen maxSeqLen docStride tr).2
       = Ret (List.map (featureOf self query context maxSeqLen) docSpans)
    /\ covering (len (allDocTokensOf self context)) docSpans
    /\ advancesBy docStride docSpans
    /\ (forall (i : nat) (a : DocSpan.t),
          nth_error docSpans i = Some a -> (S i < List.length docSpans)%nat ->
          DocSpan.length a = maxContextLenOf self query maxSeqLen).
Proof.
  intros Hquery Hpos [Hs Hwidth].
  assert (0 < maxContextLenOf self query maxSeqLen) as Hm by lia.
  destruct (process_windows self query context maxQueryLen maxSeqLen docStride tr
              Hquery Hpos Hm Hs) as (docSpans & Hspans & Hrun & Hcover & Hadv & Hfull).
  exists docSpans. rewrite Z.min_r in Hadv by lia.
  split; [exact Hspans|]. split; [exact Hrun|]. split; [exact Hcover|].
  split; [exact Hadv | exact Hfull].
Qed.

(** The stride [findAnswers] passes is within the width of a window, for
    every question that is not too long: a window holds 317 sub-words at
    least. *)
Lemma findAnswers_stride_within_width (self : QuestionAndAnswerImpl)
    (question : jsString) :
  len (queryTokensOf self question) <= MAX_QUERY_LEN ->
  0 < DOC_STRIDE <= maxContextLenOf self question MAX_SEQ_LEN
  /\ MAX_SEQ_LEN - MAX_QUERY_LEN - 3 <= maxContextLenOf self question MAX_SEQ_LEN.
Proof.
  unfold maxContextLenOf, DOC_STRIDE, MAX_SEQ_LEN, MAX_QUERY_LEN. lia.
Qed.

(** The windows of the call of [process] that [findAnswers] makes, on a
    passage with at least one sub-word: each starts exactly [DOC_STRIDE]
    sub-words after the one before it. *)
Lemma findAnswers_windows (self : QuestionAndAnswerImpl)
    (question context : jsString) (tr : list event) :
  len (queryTokensOf self question) <= MAX_QUERY_LEN ->
  0 < len (allDocTokensOf self context) ->
  exists docSpans,
    (process self question context MAX_QUERY_LEN MAX_SEQ_LEN DOC_STRIDE tr).2
    = Ret (List.map (featureOf self question context MAX_SEQ_LEN) docSpans)
    /\ covering (len (allDocTokensOf self context)) docSpans
    /\ advancesBy DOC_STRIDE docSpans.
Proof.
  intros Hquery Hpos.
  destruct (findAnswers_stride_within_width self question Hquery) as [[Hs Hwidth] _].
  assert (0 < maxContextLenOf self question MAX_SEQ_LEN) as Hm by lia.
  destruct (process_windows self question context MAX_QUERY_LEN MAX_SEQ_LEN DOC_STRIDE tr
              Hquery Hpos Hm Hs) as (docSpans & _ & Hrun & Hcover & Hadv & _).
  exists docSpans. rewrite Z.min_r in Hadv by lia.
  split; [exact Hrun|]. split; [exact Hcover | exact Hadv].
Qed.

(** ** Runs on concrete inputs

    The question is ["q"], tokenized into the two sub-words of ["q?"]; the
    passage ["a b"] has the tokens ["a"] at offset 0 and ["b"] at offset 2,
    of one sub-word each. The assembled sequence is
    [[CLS] q ? [SEP] a b [SEP]]: ["a"] stands at position 4, ["b"] at 5. *)

Lemma peakModel_shape (startPeak endPeak : nat) :
  modelShape (peakModel startPeak endPeak).
Proof.
  intros inputIds segmentIds inputMask. unfold peakModel. cbn [fst snd].
  rewrite !List.length_map. split; [reflexivity|]. split; [reflexivity|].
  split; apply List.Forall_forall; intros row Hrow; apply in_map_iff in Hrow;
    destruct Hrow as (_ & <- & _); reflexivity.
Qed.

(** C2, as the specification words it, fails: the map of the feature of
    ["a b"] has no entry at position 4, where the first sub-word of the
    passage stands, and has one at position 6, where the last separator
    stands. *)
Lemma tokenToOrigMap_not_keyed_by_position :
  let self := exampleImpl 0 0 in
  let window := DocSpan.mk 0 2 in
  let f := featureOf self (str "q") (str "a b") MAX_SEQ_LEN window in
  (process self (str "q") (str "a b") MAX_QUERY_LEN MAX_SEQ_LEN DOC_STRIDE []).2
  = Ret [f]
  /\ firstn 7 (Feature.inputIds f) = [101; 1113; 1063; 102; 1097; 1098; 102]
  /\ Feature.tokenToOrigMap f !! 4 = None
  /\ Feature.tokenToOrigMap f !! 5 = Some 0
  /\ Feature.tokenToOrigMap f !! 6 = Some 1
  /\ ~ mapKeyedAt 0 self (str "q") (str "a b") window f.
Proof.
  cbv zeta. repeat (split; [vm_compute; reflexivity|]).
  intros [Hsub _]. destruct (Hsub 0) as (_ & _ & Hmap).
  - vm_compute. split; [discriminate | reflexivity].
  - vm_compute in Hmap. discriminate Hmap.
Qed.

Lemma tokenToOrigMap_keyed_after_position_witness :
  exists docSpans,
    docSpansOf (len (allDocTokensOf (exampleImpl 0 0) (str "a b")))
      (maxContextLenOf (exampleImpl 0 0) (str "q") MAX_SEQ_LEN) DOC_STRIDE
    = Some docSpans
    /\ Forall2 (mapKeyedAt OUTPUT_OFFSET (exampleImpl 0 0) (str "q") (str "a b"))
         docSpans
         [featureOf (exampleImpl 0 0) (str "q") (str "a b") MAX_SEQ_LEN
            (DocSpan.mk 0 2)].
Proof.
  apply (tokenToOrigMap_keyed_after_position (exampleImpl 0 0) (str "q") (str "a b")
           MAX_QUERY_LEN MAX_SEQ_LEN DOC_STRIDE []).
  vm_compute. reflexivity.
Defined.

(** C4, as the specification words it, fails: the empty passage has no
    sub-word, fewer than [maxContextLen], and gets no feature. *)
Lemma empty_passage_no_feature :
  let self := exampleImpl 0 0 in
  len (allDocTokensOf self []) = 0
  /\ maxContextLenOf self (str "q") MAX_SEQ_LEN = 379
  /\ process self (str "q") [] MAX_QUERY_LEN MAX_SEQ_LEN DOC_STRIDE []
     = ([EvTokenize (str "q?"); EvProcessInput []], Ret []).
Proof. cbv zeta. repeat split; vm_compute; reflexivity. Qed.

Lemma short_passage_one_feature_witness :
  let self := exampleImpl 0 0 in
  let whole := DocSpan.mk 0 (len (allDocTokensOf self (str "a b"))) in
  docSpansOf (len (allDocTokensOf self (str "a b")))
    (maxContextLenOf self (str "q") MAX_SEQ_LEN) DOC_STRIDE = Some [whole]
  /\ (process self (str "q") (str "a b") MAX_QUERY_LEN MAX_SEQ_LEN DOC_STRIDE []).2
     = Ret [featureOf self (str "q") (str "a b") MAX_SEQ_LEN whole]
  /\ windowTokens (allDocTokensOf self (str "a b")) whole
     = allDocTokensOf self (str "a b").
Proof.
  apply (short_passage_one_feature (exampleImpl 0 0) (str "q") (str "a b")
           MAX_QUERY_LEN MAX_SEQ_LEN DOC_STRIDE []);
    vm_compute; first [reflexivity | discriminate].
Defined.

(** The stride has to be within the width for the windows to advance by
    it. [process] itself takes any [maxSeqLen]: with sequences of 10
    positions the windows of the question ["q"] are 5 sub-words wide, and
    the three windows of a passage of 12 sub-words start at 0, 5 and 10, a
    width apart. No call of [findAnswers] is such a call. *)
Lemma narrow_windows_advance_by_width :
  let self := exampleImpl 0 0 in
  let docSpans := [DocSpan.mk 0 5; DocSpan.mk 5 5; DocSpan.mk 10 2] in
  len (allDocTokensOf self (str "abcdefghijkl")) = 12
  /\ maxContextLenOf self (str "q") 10 = 5
  /\ docSpansOf 12 5 DOC_STRIDE = Some docSpans
  /\ (process self (str "q") (str "abcdefghijkl") MAX_QUERY_LEN 10 DOC_STRIDE []).2
     = Ret (List.map (featureOf self (str "q") (str "abcdefghijkl") 10) docSpans)
  /\ advancesBy 5 docSpans
  /\ ~ advancesBy DOC_STRIDE docSpans.
Proof.
  cbv zeta. repeat (split; [vm_compute; reflexivity|]). split.
  - intros [|[|[|i]]] a b Ha Hb; cbn in Ha, Hb; try discriminate;
      injection Ha as <-; injection Hb as <-; reflexivity.
  - intros Hadv.
    pose proof (Hadv 0%nat (DocSpan.mk 0 5) (DocSpan.mk 5 5) eq_refl eq_refl) as Heq.
    vm_compute in Heq. discriminate Heq.
Qed.

(** The passage of the run below: one token of 400 sub-words, more than the
    379 a window of the question ["q"] holds. *)
Lemma windows_cover_and_advance_witness :
  let self := exampleImpl 0 0 in
  let passage := repeat 97%N 400 in
  exists docSpans,
    docSpansOf (len (allDocTokensOf self passage))
      (maxContextLenOf self (str "q") MAX_SEQ_LEN) DOC_STRIDE = Some docSpans
    /\ (process self (str "q") passage MAX_QUERY_LEN MAX_SEQ_LEN DOC_STRIDE []).2
       = Ret (List.map (featureOf self (str "q") passage MAX_SEQ_LEN) docSpans)
    /\ covering (len (allDocTokensOf self passage)) docSpans
    /\ advancesBy DOC_STRIDE docSpans
    /\ (forall (i : nat) (a : DocSpan.t),
          nth_error docSpans i = Some a -> (S i < List.length docSpans)%nat ->
          DocSpan.length a = maxContextLenOf self (str "q") MAX_SEQ_LEN).
Proof.
  apply (windows_cover_and_advance (exampleImpl 0 0) (str "q") (repeat 97%N 400)
           MAX_QUERY_LEN MAX_SEQ_LEN DOC_STRIDE []).
  - vm_compute. discriminate.
  - vm_compute. reflexivity.
  - split; vm_compute; [reflexivity | discriminate].
Defined.

Lemma findAnswers_top_answers_witness :
  let self := exampleImpl 5 5 in
  exists features perFeature sorted answers tr',
    (process self (str "q") (str "a b") MAX_QUERY_LEN MAX_SEQ_LEN DOC_STRIDE []).2
    = Ret features
    /\ answersPerFeature
         (model self (List.map Feature.inputIds features)
            (List.map Feature.segmentIds features)
            (List.map Feature.inputMask features))
         (str "a b") None features perFeature
    /\ sorted = jsSort byScore (concat perFeature)
    /\ Permutation sorted (concat perFeature)
    /\ descending Answer.score sorted
    /\ answers = firstn (Z.to_nat PREDICT_ANSWER_NUM) sorted
    /\ findAnswers self (Some (str "q")) (Some (str "a b")) None [] = (tr', Ret answers)
    /\ len answers <= PREDICT_ANSWER_NUM
    /\ descending Answer.score answers
    /\ Forall (fun a => (NO_ANSWER_THRESHOLD <= Answer.score a)%Q) answers.
Proof.
  apply (findAnswers_top_answers (exampleImpl 5 5) (str "q") (str "a b") None []).
  - apply peakModel_shape.
  - vm_compute. discriminate.
Defined.

Lemma sentinel_branch_unreachable_witness :
  Forall (decodesWithoutSentinel (exampleImpl 5 5) (str "q"))
    [featureOf (exampleImpl 5 5) (str "q") (str "a b") MAX_SEQ_LEN (DocSpan.mk 0 2)].
Proof.
  apply (sentinel_branch_unreachable (exampleImpl 5 5) (str "q") (str "a b")
           MAX_QUERY_LEN MAX_SEQ_LEN DOC_STRIDE []).
  vm_compute. reflexivity.
Defined.

(** C1: a pair whose positions both have an entry in the map is dropped
    when an entry is the index 0. The logits peak at position 4, the
    sub-word of the first token ["a"]: position 4 is among the best start
    and end positions, the map has the entry [0] at [4 + OUTPUT_OFFSET], the
    pair (4, 4) is in order and short, and yet no candidate is kept. *)
Theorem first_token_span_dropped :
  let self := exampleImpl 4 4 in
  let f := featureOf self (str "q") (str "a b") MAX_SEQ_LEN (DocSpan.mk 0 2) in
  let startLogits := peakRow 4 in
  let endLogits := peakRow 4 in
  (process self (str "q") (str "a b") MAX_QUERY_LEN MAX_SEQ_LEN DOC_STRIDE []).2
  = Ret [f]
  /\ model self [Feature.inputIds f] [Feature.segmentIds f] [Feature.inputMask f]
     = ([startLogits], [endLogits])
  /\ getBestIndex startLogits = [4; 0; 1; 2; 3]
  /\ getBestIndex endLogits = [4; 0; 1; 2; 3]
  /\ Feature.tokenToOrigMap f !! (4 + OUTPUT_OFFSET) = Some 0
  /\ 4 - 4 + 1 < MAX_ANSWER_LEN
  /\ origResultsOf startLogits endLogits (Feature.tokenToOrigMap f)
       (getBestIndex startLogits) (getBestIndex endLogits) = []
  /\ (findAnswers self (Some (str "q")) (Some (str "a b")) None []).2 = Ret [].
Proof. cbv zeta. repeat split; vm_compute; reflexivity. Qed.

(** C3: the end offset of an answer that ends with the last token is the
    length of the context, one past its last character; and the offsets are
    those of the trimmed context, while the text is cut out of the context
    as given. The logits peak at ["b"], the last token of ["a b"]: the
    answer has the end offset 3, the length of ["a b"]. In ["  ab cd ef"],
    with logits that peak at the sub-words of ["cd"] (positions 6 and 7),
    the answer is ["b c"] at the offsets 3 to 5. *)
Theorem answer_offsets_out_of_context :
  (findAnswers (exampleImpl 5 5) (Some (str "q")) (Some (str "a b")) None []).2
  = Ret [Answer.mk (str "b") 2 3 20 (str "a b") None]
  /\ len (str "a b") = 3
  /\ ~ (3 < len (str "a b"))
  /\ origTokensOf (exampleImpl 6 7) (str "  ab cd ef")
     = [Token.mk (str "ab") 0; Token.mk (str "cd") 3; Token.mk (str "ef") 6]
  /\ (findAnswers (exampleImpl 6 7) (Some (str "q")) (Some (str "  ab cd ef")) None []).2
     = Ret [Answer.mk (str "b c") 3 5 20 (str "  ab cd ef") None].
Proof.
  split; [vm_compute; reflexivity|]. split; [vm_compute; reflexivity|].
  split; [vm_compute; discriminate|].
  split; vm_compute; reflexivity.
Qed.

(** ** The arrays of a feature *)

Lemma map_const_repeat {A B : Type} (c : B) (l : list A) :
  List.map (fun _ => c) l = repeat c (List.length l).
Proof. induction l as [|x l IH]; simpl; [reflexivity | now rewrite IH]. Qed.

Lemma len_repeat {A : Type} (c : A) (n : nat) : len (repeat c n) = Z.of_nat n.
Proof. unfold len. now rewrite repeat_length. Qed.

Lemma len_windowTokens (allDocTokens : list Z) (docSpan : DocSpan.t) :
  len (windowTokens allDocTokens docSpan) = Z.max 0 (DocSpan.length docSpan).
Proof. unfold windowTokens. now rewrite len_map, len_upto. Qed.

Lemma segments_repeat (n k : nat) :
  (([0] ++ repeat 0 n ++ [0]) ++ repeat 1 k) ++ [1]
  = repeat 0 (n + 2) ++ repeat 1 (k + 1).
Proof.
  replace (n + 2)%nat with (S (n + 1)) by lia.
  cbn [repeat]. rewrite !repeat_app. cbn [repeat app].
  now rewrite <- !app_assoc.
Qed.

(** The three arrays of the feature of a window: the tokens, a mask of ones
    and the segment ids, each padded with zeros. *)
Lemma makeFeature_arrays (self : QuestionAndAnswerImpl) (queryTokens : list Z)
    (origTokens : list Token.t) (allDocTokens tokenToOrigIndex : list Z)
    (maxSeqLen : Z) (docSpan : DocSpan.t) :
  let f := makeFeature self queryTokens origTokens allDocTokens tokenToOrigIndex
             maxSeqLen docSpan in
  let window := windowTokens allDocTokens docSpan in
  let tokens := CLS_INDEX (tokenizer self) :: queryTokens
                ++ SEP_INDEX (tokenizer self) :: window
                ++ [SEP_INDEX (tokenizer self)] in
  let padding := repeat 0 (Z.to_nat (maxSeqLen - len tokens)) in
  Feature.inputIds f = tokens ++ padding
  /\ Feature.inputMask f = repeat 1 (List.length tokens) ++ padding
  /\ Feature.segmentIds f
     = repeat 0 (List.length queryTokens + 2)
       ++ repeat 1 (List.length window + 1) ++ padding.
Proof.
  unfold makeFeature, windowTokens.
  destruct (featureLoop_run allDocTokens tokenToOrigIndex docSpan
              (Z.to_nat (DocSpan.length docSpan)) 0
              ([CLS_INDEX (tokenizer self)] ++ queryTokens ++ [SEP_INDEX (tokenizer self)])
              ([0] ++ List.map (fun _ => 0) queryTokens ++ [0]) ∅)
    as (m' & Hrun & _).
  unfold upto. rewrite Hrun. cbv zeta.
  cbn [Feature.inputIds Feature.inputMask Feature.segmentIds].
  set (window := List.map (fun i => getZ allDocTokens (i + DocSpan.start docSpan))
                   (List.map Z.of_nat (seq 0 (Z.to_nat (DocSpan.length docSpan))))).
  assert ((([CLS_INDEX (tokenizer self)] ++ queryTokens ++ [SEP_INDEX (tokenizer self)])
           ++ window) ++ [SEP_INDEX (tokenizer self)]
          = CLS_INDEX (tokenizer self) :: queryTokens
            ++ SEP_INDEX (tokenizer self) :: window ++ [SEP_INDEX (tokenizer self)])
    as -> by (cbn [app]; rewrite <- !app_assoc; reflexivity).
  set (padding := repeat 0 _).
  split; [reflexivity|]. split.
  - now rewrite map_const_repeat.
  - rewrite !map_const_repeat, segments_repeat, <- app_assoc.
    subst window. now rewrite !List.length_map.
Qed.

(** Every feature that [process] returns has its three arrays of exactly
    [maxSeqLen] entries: the assembled sequence of at most [maxSeqLen]
    tokens with zeros after it, a mask of ones over the assembled sequence
    and zeros over the padding, and segment ids that are 0 over the marker,
    the query tokens and the first separator, 1 over the passage sub-words
    and the last separator, and 0 over the padding. *)
Theorem process_features_padded (self : QuestionAndAnswerImpl)
    (query context : jsString) (maxQueryLen maxSeqLen docStride : Z)
    (tr : list event) (features : list Feature.t) :
  (process self query context maxQueryLen maxSeqLen docStride tr).2 = Ret features ->
  Forall (fun f =>
    exists window : list Z,
      let q := len (queryTokensOf self query) in
      let real := q + 3 + len window in
      let padding := repeat 0 (Z.to_nat (maxSeqLen - real)) in
      1 <= len window /\ real <= maxSeqLen
      /\ Feature.inputIds f
         = (CLS_INDEX (tokenizer self) :: queryTokensOf self query
            ++ SEP_INDEX (tokenizer self) :: window ++ [SEP_INDEX (tokenizer self)])
           ++ padding
      /\ Feature.inputMask f = repeat 1 (Z.to_nat real) ++ padding
      /\ Feature.segmentIds f
         = repeat 0 (Z.to_nat (q + 2)) ++ repeat 1 (Z.to_nat (len window + 1)) ++ padding
      /\ len (Feature.inputIds f) = maxSeqLen
      /\ len (Feature.inputMask f) = maxSeqLen
      /\ len (Feature.segmentIds f) = maxSeqLen
      /\ Feature.origTokens f = origTokensOf self context) features.
Proof.
  rewrite process_run. cbn [snd]. intros Hout.
  apply processOutcome_Ret in Hout. destruct Hout as (_ & docSpans & Hspans & ->).
  apply docSpansOf_windows in Hspans.
  apply List.Forall_forall. intros f Hf. apply in_map_iff in Hf.
  destruct Hf as (docSpan & <- & Hin).
  destruct (windows_zero_in_range _ _ _ _ Hspans docSpan Hin) as (_ & Hpos & _).
  destruct (windows_each _ _ _ _ _ Hspans docSpan Hin) as (_ & Hwidth).
  exists (windowTokens (allDocTokensOf self context) docSpan). cbv zeta.
  pose proof (len_windowTokens (allDocTokensOf self context) docSpan) as Hlen.
  rewrite Z.max_r in Hlen by lia.
  unfold featureOf.
  destruct (makeFeature_arrays self (queryTokensOf self query) (origTokensOf self context)
              (allDocTokensOf self context) (tokenToOrigIndexOf self context)
              maxSeqLen docSpan) as (Hids & Hmask & Hsegs).
  destruct (makeFeature_parts self (queryTokensOf self query) (origTokensOf self context)
              (allDocTokensOf self context) (tokenToOrigIndexOf self context)
              maxSeqLen docSpan) as (_ & Horig & _).
  set (window := windowTokens (allDocTokensOf self context) docSpan) in *.
  set (tokens := CLS_INDEX (tokenizer self) :: queryTokensOf self query
                 ++ SEP_INDEX (tokenizer self) :: window
                 ++ [SEP_INDEX (tokenizer self)]) in *.
  assert (len tokens = len (queryTokensOf self query) + 3 + len window) as Htokens.
  { unfold tokens. rewrite len_cons, len_app, len_cons, len_app.
    change (len [_]) with 1. lia. }
  assert (len (queryTokensOf self query) + 3 + len window <= maxSeqLen) as Hfits
    by (unfold maxContextLenOf in Hwidth; lia).
  pose proof (len_nonneg (queryTokensOf self query)) as Hq.
  rewrite Htokens in Hids, Hmask, Hsegs.
  split; [lia|]. split; [exact Hfits|]. split; [exact Hids|].
  assert (List.length tokens
          = Z.to_nat (len (queryTokensOf self query) + 3 + len window)) as Hn
    by (unfold len in *; lia).
  rewrite Hn in Hmask. split; [exact Hmask|].
  replace (List.length (queryTokensOf self query) + 2)%nat
    with (Z.to_nat (len (queryTokensOf self query) + 2)) in Hsegs
    by (unfold len; lia).
  replace (List.length window + 1)%nat with (Z.to_nat (len window + 1)) in Hsegs
    by (unfold len; lia).
  split; [exact Hsegs|].
  rewrite Hids, Hmask, Hsegs, !len_app, !len_repeat, Htokens.
  repeat split; try lia. exact Horig.
Qed.

Lemma process_features_padded_witness :
  Forall (fun f =>
    exists window : list Z,
      let q := len (queryTokensOf (exampleImpl 0 0) (str "q")) in
      let real := q + 3 + len window in
      let padding := repeat 0 (Z.to_nat (MAX_SEQ_LEN - real)) in
      1 <= len window /\ real <= MAX_SEQ_LEN
      /\ Feature.inputIds f
         = (CLS_INDEX (tokenizer (exampleImpl 0 0))
            :: queryTokensOf (exampleImpl 0 0) (str "q")
            ++ SEP_INDEX (tokenizer (exampleImpl 0 0)) :: window
            ++ [SEP_INDEX (tokenizer (exampleImpl 0 0))])
           ++ padding
      /\ Feature.inputMask f = repeat 1 (Z.to_nat real) ++ padding
      /\ Feature.segmentIds f
         = repeat 0 (Z.to_nat (q + 2)) ++ repeat 1 (Z.to_nat (len window + 1)) ++ padding
      /\ len (Feature.inputIds f) = MAX_SEQ_LEN
      /\ len (Feature.inputMask f) = MAX_SEQ_LEN
      /\ len (Feature.segmentIds f) = MAX_SEQ_LEN
      /\ Feature.origTokens f = origTokensOf (exampleImpl 0 0) (str "a b"))
    [featureOf (exampleImpl 0 0) (str "q") (str "a b") MAX_SEQ_LEN (DocSpan.mk 0 2)].
Proof.
  apply (process_features_padded (exampleImpl 0 0) (str "q") (str "a b")
           MAX_QUERY_LEN MAX_SEQ_LEN DOC_STRIDE []).
  vm_compute. reflexivity.
Defined.

(** ** The calls of [findAnswers] *)

(** A call of [findAnswers] with a question and a context tokenizes the
    normalized question first. When the question is too long nothing else is
    called: the passage is not tokenized and the model is not run. Otherwise
    the trimmed context is given to [processInput], each original token is
    tokenized in order, feature construction returns (the loop over the
    windows ends), and the model is executed exactly once, last, on a batch
    of one row per feature. *)
Theorem findAnswers_calls (self : QuestionAndAnswerImpl)
    (question context : jsString) (id : option jsString) (tr : list event) :
  (MAX_QUERY_LEN < len (queryTokensOf self question) ->
   (findAnswers self (Some question) (Some context) id tr).1
   = tr ++ [EvTokenize (normalize question)])
  /\ (len (queryTokensOf self question) <= MAX_QUERY_LEN ->
      exists features,
        (process self question context MAX_QUERY_LEN MAX_SEQ_LEN DOC_STRIDE tr).2
        = Ret features
        /\ (findAnswers self (Some question) (Some context) id tr).1
           = tr ++ [EvTokenize (normalize question)]
             ++ [EvProcessInput (trim context)]
             ++ List.map (fun token => EvTokenize (Token.text token))
                  (processInput (tokenizer self) (trim context))
             ++ [EvExecute (len features)]).
Proof.
  rewrite findAnswers_run, process_run. cbn [snd]. split.
  - intros Hlong.
    assert (processOutcome self question context MAX_QUERY_LEN MAX_SEQ_LEN DOC_STRIDE
            = Throw (InputTooLong MAX_QUERY_LEN)) as -> by now apply processOutcome_Throw.
    cbn [fst]. unfold processEvents.
    destruct (Z.gtb_spec (len (queryTokensOf self question)) MAX_QUERY_LEN);
      [reflexivity | lia].
  - intros Hquery.
    destruct (docSpansOf_ends (len (allDocTokensOf self context))
                (maxContextLenOf self question MAX_SEQ_LEN) DOC_STRIDE)
      as (docSpans & Hspans & _).
    { unfold maxContextLenOf, MAX_SEQ_LEN, MAX_QUERY_LEN in *. lia. }
    { reflexivity. }
    exists (List.map (featureOf self question context MAX_SEQ_LEN) docSpans).
    assert (processOutcome self question context MAX_QUERY_LEN MAX_SEQ_LEN DOC_STRIDE
            = Ret (List.map (featureOf self question context MAX_SEQ_LEN) docSpans))
      as -> by (apply processOutcome_Ret; split; [exact Hquery | now exists docSpans]).
    split; [reflexivity|]. cbn [fst]. unfold processEvents.
    destruct (Z.gtb_spec (len (queryTokensOf self question)) MAX_QUERY_LEN); [lia|].
    unfold origTokensOf. cbn [app]. rewrite <- ?app_assoc. reflexivity.
Qed.

(** ** Loops over windows that do not end *)

Lemma docSpansLoop_no_end (total maxContextLen docStride : Z) (fuel : nat) :
  0 < total ->
  maxContextLen <= 0 \/ (docStride <= 0 /\ maxContextLen < total) ->
  docSpansLoop fuel total maxContextLen docStride 0 [] = None.
Proof.
  intros Hpos Hbad.
  destruct (docSpansLoop fuel total maxContextLen docStride 0 []) as [docSpans|] eqn:Hrun;
    [|reflexivity].
  apply docSpansLoop_windows in Hrun. exfalso. destruct Hbad as [Hm|[Hs Hlong]].
  - pose proof (windows_positive_width _ _ _ _ _ Hrun Hpos). lia.
  - apply (windows_stuck _ _ _ _ _ Hrun); lia.
Qed.

(** Feature construction does not return exactly when the question is not
    too long, the passage has a sub-word, and either a window has no room
    ([maxSeqLen - queryTokens.length - 3 <= 0]) or the stride is not positive
    while the passage is longer than a window: then the loop over the
    windows pushes windows without end, whatever the number of turns. With
    the constants of [findAnswers] this never happens. *)
Theorem process_diverges_iff (self : QuestionAndAnswerImpl)
    (query context : jsString) (maxQueryLen maxSeqLen docStride : Z)
    (tr : list event) :
  let total := len (allDocTokensOf self context) in
  let maxContextLen := maxSeqLen - len (queryTokensOf self query) - 3 in
  ((process self query context maxQueryLen maxSeqLen docStride tr).2 = Diverge
   <-> len (queryTokensOf self query) <= maxQueryLen
       /\ 0 < total
       /\ (maxContextLen <= 0 \/ (docStride <= 0 /\ maxContextLen < total)))
  /\ ((process self query context maxQueryLen maxSeqLen docStride tr).2 = Diverge ->
      forall fuel, docSpansLoop fuel total maxContextLen docStride 0 [] = None)
  /\ (maxQueryLen = MAX_QUERY_LEN -> maxSeqLen = MAX_SEQ_LEN -> 0 < docStride ->
      exists out, (process self query context maxQueryLen maxSeqLen docStride tr).2 = out
                  /\ (out = Throw (InputTooLong MAX_QUERY_LEN)
                      \/ exists features, out = Ret features)).
Proof.
  cbv zeta. rewrite process_run. cbn [snd].
  fold (maxContextLenOf self query maxSeqLen).
  set (total := len (allDocTokensOf self context)).
  set (m := maxContextLenOf self query maxSeqLen).
  assert (processOutcome self query context maxQueryLen maxSeqLen docStride = Diverge
          <-> len (queryTokensOf self query) <= maxQueryLen
              /\ 0 < total /\ (m <= 0 \/ (docStride <= 0 /\ m < total))) as Hiff.
  { unfold processOutcome. fold total. fold m.
    destruct (Z.gtb_spec (len (queryTokensOf self query)) maxQueryLen) as [Hlong|Hok].
    { split; [discriminate | lia]. }
    destruct (docSpansOf total m docStride) as [docSpans|] eqn:Hspans.
    - split; [discriminate|]. intros (_ & Hpos & Hbad). exfalso.
      unfold docSpansOf in Hspans.
      now rewrite (docSpansLoop_no_end _ _ _ _ Hpos Hbad) in Hspans.
    - split; [|reflexivity]. intros _. split; [exact Hok|].
      destruct (Z_lt_le_dec 0 total) as [Hpos|Hnone].
      + split; [exact Hpos|].
        destruct (Z_lt_le_dec 0 m) as [Hm|Hm]; [|now left]. right.
        destruct (Z_lt_le_dec m total) as [Hlong|Hfit].
        * split; [|exact Hlong].
          destruct (Z_lt_le_dec 0 docStride) as [Hs|Hs]; [|exact Hs].
          destruct (docSpansOf_ends total m docStride Hm Hs) as (docSpans & Hsome & _).
          congruence.
        * rewrite (docSpansOf_whole total m docStride Hpos Hfit) in Hspans.
          discriminate.
      + exfalso. unfold docSpansOf in Hspans. cbn [docSpansLoop] in Hspans.
        destruct (Z.ltb_spec 0 total); [lia | discriminate]. }
  split; [exact Hiff|]. split.
  - intros Hdiv fuel. apply Hiff in Hdiv. destruct Hdiv as (_ & Hpos & Hbad).
    now apply docSpansLoop_no_end.
  - intros -> -> Hs. eexists. split; [reflexivity|].
    unfold processOutcome. fold total. fold m.
    destruct (Z.gtb_spec (len (queryTokensOf self query)) MAX_QUERY_LEN) as [Hlong|Hok];
      [now left|]. right.
    destruct (docSpansOf_ends total m docStride) as (docSpans & -> & _);
      [unfold m, maxContextLenOf, MAX_SEQ_LEN, MAX_QUERY_LEN in *; lia | exact Hs |].
    eauto.
Qed.

(** ** No sub-word of the passage is lost *)

Lemma windows_pointwise (total maxContextLen docStride startOffset : Z)
    (docSpans : list DocSpan.t) :
  0 < maxContextLen -> 0 < docStride ->
  windows total maxContextLen docStride startOffset docSpans ->
  forall j, startOffset <= j < total ->
    exists docSpan,
      In docSpan docSpans
      /\ DocSpan.start docSpan <= j < DocSpan.start docSpan + DocSpan.length docSpan.
Proof.
  intros Hm Hs.
  induction 1 as [off Hge | off Hlt Hfit | off rest Hlt Hbig Hrest IH]; intros j Hj.
  - lia.
  - eexists. split; [now left|]. simpl. lia.
  - destruct (Z_lt_le_dec j (off + maxContextLen)) as [Hin|Hout].
    + eexists. split; [now left|]. simpl. lia.
    + destruct (IH j) as (docSpan & Hmem & Hrange); [lia|].
      exists docSpan. split; [now right | exact Hrange].
Qed.

(** Every sub-word of the passage is in the window of a feature that
    [process] returns: it stands in the feature's [inputIds] after the
    marker, the query tokens and the separator, and the feature's map gives
    the index of its token under the position that follows. *)
Theorem every_subword_in_a_feature (self : QuestionAndAnswerImpl)
    (query context : jsString) (maxQueryLen maxSeqLen docStride : Z)
    (tr : list event) (features : list Feature.t) (j : Z) :
  (process self query context maxQueryLen maxSeqLen docStride tr).2 = Ret features ->
  0 <= j < len (allDocTokensOf self context) ->
  exists f position,
    In f features
    /\ len (queryTokensOf self query) + 2 <= position
    /\ is_Some (lookupZ (allDocTokensOf self context) j)
    /\ lookupZ (Feature.inputIds f) position = lookupZ (allDocTokensOf self context) j
    /\ Feature.tokenToOrigMap f !! (position + OUTPUT_OFFSET)
       = lookupZ (tokenToOrigIndexOf self context) j.
Proof.
  rewrite process_run. cbn [snd]. intros Hout Hj.
  apply processOutcome_Ret in Hout. destruct Hout as (_ & docSpans & Hspans & ->).
  apply docSpansOf_windows in Hspans.
  pose proof (windows_positive_width _ _ _ _ _ Hspans ltac:(lia)) as Hm.
  assert (exists docSpan,
            In docSpan docSpans
            /\ DocSpan.start docSpan <= j
               < DocSpan.start docSpan + DocSpan.length docSpan) as (docSpan & Hin & Hrange).
  { destruct (Z_lt_le_dec (maxContextLenOf self query maxSeqLen)
                (len (allDocTokensOf self context))) as [Hlong|Hfit].
    - destruct (Z_lt_le_dec 0 docStride) as [Hs|Hs].
      + apply (windows_pointwise _ _ _ _ _ Hm Hs Hspans). lia.
      + exfalso. apply (windows_stuck _ _ _ _ _ Hspans); lia.
    - inversion Hspans; subst; try lia.
      eexists. split; [now left|]. simpl. lia. }
  destruct (windows_zero_in_range _ _ _ _ Hspans docSpan Hin) as (H0 & _ & Hend).
  destruct (featureOf_mapKeyedAt self query context maxSeqLen docSpan H0 Hend)
    as [Hsub _].
  destruct (Hsub (j - DocSpan.start docSpan)) as (Hsome & Hids & Hmap); [lia|].
  replace (DocSpan.start docSpan + (j - DocSpan.start docSpan)) with j in * by lia.
  exists (featureOf self query context maxSeqLen docSpan),
    (len (queryTokensOf self query) + 2 + (j - DocSpan.start docSpan)).
  split; [now apply in_map|]. split; [lia|]. split; [exact Hsome|].
  split; [exact Hids | exact Hmap].
Qed.

Lemma process_diverges_iff_witness :
  (process (exampleImpl 0 0) (str "q") (str "a") MAX_QUERY_LEN 5 DOC_STRIDE []).2
  = Diverge.
Proof.
  apply (proj1 (process_diverges_iff (exampleImpl 0 0) (str "q") (str "a")
                  MAX_QUERY_LEN 5 DOC_STRIDE [])).
  vm_compute. split; [discriminate|]. split; [reflexivity|]. left. discriminate.
Defined.

Lemma every_subword_in_a_feature_witness :
  let self := exampleImpl 0 0 in
  exists f position,
    In f (List.map (featureOf self (str "q") (str "abcdefghijkl") 10)
            [DocSpan.mk 0 5; DocSpan.mk 5 5; DocSpan.mk 10 2])
    /\ len (queryTokensOf self (str "q")) + 2 <= position
    /\ is_Some (lookupZ (allDocTokensOf self (str "abcdefghijkl")) 7)
    /\ lookupZ (Feature.inputIds f) position
       = lookupZ (allDocTokensOf self (str "abcdefghijkl")) 7
    /\ Feature.tokenToOrigMap f !! (position + OUTPUT_OFFSET)
       = lookupZ (tokenToOrigIndexOf self (str "abcdefghijkl")) 7.
Proof.
  apply (every_subword_in_a_feature (exampleImpl 0 0) (str "q") (str "abcdefghijkl")
           MAX_QUERY_LEN 10 DOC_STRIDE []).
  - vm_compute. reflexivity.
  - vm_compute. split; [discriminate | reflexivity].
Defined.

(** ** The sub-words of the passage and their tokens *)

Lemma lookupZ_map {A B : Type} (g : A -> B) (l : list A) (i : Z) :
  lookupZ (List.map g l) i = option_map g (lookupZ l i).
Proof.
  unfold lookupZ. destruct (i <? 0); [reflexivity|]. apply nth_error_map.
Qed.

(** The loop over the original tokens, as a list: the sub-word [j] of the
    passage is a sub-word of the token whose number [tokenToOrigIndex] gives
    for it, the tokens being numbered from [i0] on. *)
Lemma originsFrom_lookup (subTokens : list (list Z)) :
  forall (i0 j : Z),
    0 <= j < len (concat subTokens) ->
    exists (k : nat) (s : list Z),
      nth_error subTokens k = Some s
      /\ lookupZ (originsFrom i0 subTokens) j = Some (i0 + Z.of_nat k)
      /\ len (concat (firstn k subTokens)) <= j
         < len (concat (firstn k subTokens)) + len s
      /\ lookupZ (concat subTokens) j
         = lookupZ s (j - len (concat (firstn k subTokens))).
Proof.
  induction subTokens as [|s rest IH]; intros i0 j Hj;
    [change (len (concat [])) with 0 in Hj; lia|].
  cbn [concat originsFrom] in *. rewrite len_app in Hj.
  destruct (Z_lt_le_dec j (len s)) as [Hhere|Hlater].
  - exists 0%nat, s. split; [reflexivity|].
    rewrite !lookupZ_app_l by (rewrite ?len_map; lia).
    rewrite lookupZ_map.
    destruct (lookupZ_in_range s j) as [x Hx]; [lia|]. rewrite Hx.
    cbn [firstn concat option_map]. change (len []) with 0.
    split; [f_equal; lia|]. split; [lia|]. now rewrite Z.sub_0_r, Hx.
  - destruct (IH (i0 + 1) (j - len s)) as (k & s' & Hk & Horigin & Hrange & Hsub); [lia|].
    exists (S k), s'. split; [exact Hk|].
    replace j with (len (List.map (fun _ : Z => i0) s) + (j - len s)) at 1
      by (rewrite len_map; lia).
    rewrite lookupZ_app_r by lia. rewrite Horigin.
    split; [f_equal; lia|].
    cbn [firstn concat]. rewrite len_app. split; [lia|].
    replace j with (len s + (j - len s)) at 1 by lia.
    rewrite lookupZ_app_r by lia. rewrite Hsub. f_equal. lia.
Qed.

(** [tokenToOrigIndex] gives, for every sub-word of the passage, the index of
    the original token it is a sub-word of: the sub-words of the tokens
    before that one come first in [allDocTokens], then the sub-words of that
    token, among which it stands. The two arrays have the same length. *)
Theorem tokenToOrigIndex_origin (self : QuestionAndAnswerImpl) (context : jsString)
    (j : Z) :
  len (tokenToOrigIndexOf self context) = len (allDocTokensOf self context)
  /\ (0 <= j < len (allDocTokensOf self context) ->
      exists (i : nat) (token : Token.t),
        lookupZ (tokenToOrigIndexOf self context) j = Some (Z.of_nat i)
        /\ nth_error (origTokensOf self context) i = Some token
        /\ let subTokens := tokenize (tokenizer self) (Token.text token) in
           let before := len (concat (firstn i (subTokensOf self context))) in
           before <= j < before + len subTokens
           /\ lookupZ (allDocTokensOf self context) j = lookupZ subTokens (j - before)).
Proof.
  split; [apply len_tokenToOrigIndexOf|]. intros Hj.
  destruct (originsFrom_lookup (subTokensOf self context) 0 j Hj)
    as (k & s & Hk & Horigin & Hrange & Hsub).
  unfold subTokensOf in Hk. rewrite nth_error_map in Hk.
  destruct (nth_error (origTokensOf self context) k) as [token|] eqn:Htoken;
    [|discriminate].
  injection Hk as <-. exists k, token. cbv zeta.
  split; [exact Horigin|]. split; [exact Htoken|]. split; [exact Hrange | exact Hsub].
Qed.

(** ** The answers of one feature *)

Lemma descending_app_l {A : Type} (key : A -> Q) (l1 l2 : list A) :
  descending key (l1 ++ l2) -> descending key l1.
Proof.
  unfold descending. induction l1 as [|x l1 IH]; simpl; intros H; [constructor|].
  apply StronglySorted_inv in H. destruct H as [Hl Hx].
  constructor; [now apply IH|].
  apply List.Forall_app in Hx. tauto.
Qed.

Lemma descending_Forall2 {A B : Type} (keyA : A -> Q) (keyB : B -> Q)
    (l : list A) (l' : list B) :
  Forall2 (fun a b => keyB b = keyA a) l l' ->
  descending keyA l -> descending keyB l'.
Proof.
  unfold descending. induction 1 as [|a b l l' Hab Hll IH]; intros Hl; [constructor|].
  apply StronglySorted_inv in Hl. destruct Hl as [Hl Ha].
  constructor; [now apply IH|]. rewrite Hab. clear IH Hl.
  induction Hll as [|a' b' l l' Hab' _ IH]; [constructor|].
  apply List.Forall_cons_iff in Ha. destruct Ha as [Ha' Ha].
  constructor; [now rewrite Hab' | now apply IH].
Qed.

Lemma Forall2_len {A B : Type} (P : A -> B -> Prop) (l : list A) (l' : list B) :
  Forall2 P l l' -> len l' = len l.
Proof.
  intros H. unfold len. induction H as [|a b l l' _ _ IH]; simpl; [reflexivity | lia].
Qed.

Lemma sortedOrigResults_descending (startLogits endLogits : list Q)
    (tokenToOrigMap : gmap Z Z) :
  descending AnswerIndex.score (sortedOrigResults startLogits endLogits tokenToOrigMap).
Proof. unfold sortedOrigResults. apply (jsSort_descending AnswerIndex.score). Qed.

(** The answers of a feature echo the context and the id they are given. *)
Lemma getBestAnswers_echo (startLogits endLogits : list Q) (origTokens : list Token.t)
    (tokenToOrigMap : gmap Z Z) (context : jsString) (docIndex : Z)
    (id : option jsString) (answers : list Answer.t) :
  getBestAnswers startLogits endLogits origTokens tokenToOrigMap context docIndex id
  = Some answers ->
  Forall (fun a => Answer.context a = context /\ Answer.id a = id) answers.
Proof.
  unfold getBestAnswers. intros H. apply answersLoop_kept in H.
  destruct H as (kept & dropped & _ & Hall & _).
  revert Hall. apply Forall2_Forall_r. intros r a _ (_ & _ & Hc & Hi). now split.
Qed.

(** What [getBestAnswers] returns for a feature: the answers of the first
    candidates in descending order of score, as many as there are before the
    fifth one is passed or a score is under [NO_ANSWER_THRESHOLD]. They are
    at most [PREDICT_ANSWER_NUM], in non-increasing order of score, each of a
    score that is at least the threshold, with the context and the id given. *)
Theorem getBestAnswers_best_first (startLogits endLogits : list Q)
    (origTokens : list Token.t) (tokenToOrigMap : gmap Z Z) (context : jsString)
    (docIndex : Z) (id : option jsString) (answers : list Answer.t) :
  getBestAnswers startLogits endLogits origTokens tokenToOrigMap context docIndex id
  = Some answers ->
  len answers <= PREDICT_ANSWER_NUM
  /\ descending Answer.score answers
  /\ Forall (fun a => (NO_ANSWER_THRESHOLD <= Answer.score a)%Q
                      /\ Answer.context a = context /\ Answer.id a = id) answers
  /\ exists kept dropped,
       sortedOrigResults startLogits endLogits tokenToOrigMap = kept ++ dropped
       /\ List.map Answer.score answers = List.map AnswerIndex.score kept
       /\ (dropped = []
           \/ len kept = PREDICT_ANSWER_NUM
           \/ exists r rest,
                dropped = r :: rest
                /\ (AnswerIndex.score r < NO_ANSWER_THRESHOLD)%Q).
Proof.
  intros Hrun.
  pose proof (getBestAnswers_threshold _ _ _ _ _ _ _ _ Hrun) as Hthr.
  pose proof (getBestAnswers_echo _ _ _ _ _ _ _ _ Hrun) as Hecho.
  unfold getBestAnswers in Hrun. apply answersLoop_kept in Hrun.
  destruct Hrun as (kept & dropped & Hsplit & Hall & _ & Hlen & Hstop).
  assert (Forall2 (fun r a => Answer.score a = AnswerIndex.score r) kept answers)
    as Hscores.
  { revert Hall. apply Forall2_impl_In. now intros r a _ (_ & Hs & _). }
  pose proof (Forall2_len _ _ _ Hall) as Hsame.
  unfold PREDICT_ANSWER_NUM in *.
  split; [lia|]. split; [|split].
  - apply (descending_Forall2 AnswerIndex.score Answer.score kept); [exact Hscores|].
    apply (descending_app_l _ kept dropped). rewrite <- Hsplit.
    apply sortedOrigResults_descending.
  - apply List.Forall_forall. intros a Ha.
    rewrite List.Forall_forall in Hthr, Hecho.
    split; [now apply Hthr | now apply Hecho].
  - exists kept, dropped. split; [exact Hsplit|]. split.
    + clear -Hscores. induction Hscores as [|r a kept answers Hra _ IH]; simpl;
        [reflexivity | now rewrite Hra, IH].
    + destruct Hstop as [Hnil|[Hfive|Hlow]];
        [now left | right; left; lia | right; right; exact Hlow].
Qed.

Lemma getBestAnswers_best_first_witness :
  let f := featureOf (exampleImpl 5 5) (str "q") (str "a b") MAX_SEQ_LEN
             (DocSpan.mk 0 2) in
  let answers := [Answer.mk (str "b") 2 3 20 (str "a b") None] in
  len answers <= PREDICT_ANSWER_NUM
  /\ descending Answer.score answers
  /\ Forall (fun a => (NO_ANSWER_THRESHOLD <= Answer.score a)%Q
                      /\ Answer.context a = str "a b" /\ Answer.id a = None) answers
  /\ exists kept dropped,
       sortedOrigResults (peakRow 5) (peakRow 5) (Feature.tokenToOrigMap f)
       = kept ++ dropped
       /\ List.map Answer.score answers = List.map AnswerIndex.score kept
       /\ (dropped = []
           \/ len kept = PREDICT_ANSWER_NUM
           \/ exists r rest,
                dropped = r :: rest
                /\ (AnswerIndex.score r < NO_ANSWER_THRESHOLD)%Q).
Proof.
  apply (getBestAnswers_best_first (peakRow 5) (peakRow 5)
           (Feature.origTokens
              (featureOf (exampleImpl 5 5) (str "q") (str "a b") MAX_SEQ_LEN
                 (DocSpan.mk 0 2)))
           (Feature.tokenToOrigMap
              (featureOf (exampleImpl 5 5) (str "q") (str "a b") MAX_SEQ_LEN
                 (DocSpan.mk 0 2)))
           (str "a b") 0 None).
  vm_compute. reflexivity.
Defined.

(** A candidate of a score that is the threshold itself is kept: the test
    of the loop is [score < NO_ANSWER_THRESHOLD]. The start logits are the
    threshold at position 5 and -1 elsewhere, the end logits 0 at position 5
    and -1 elsewhere; the one candidate is the pair (5, 5), the sub-word of
    ["b"]. *)
Lemma answer_at_threshold_kept :
  let f := featureOf (exampleImpl 5 5) (str "q") (str "a b") MAX_SEQ_LEN
             (DocSpan.mk 0 2) in
  let row (v : Q) :=
    List.map (fun i => if Nat.eqb i 5 then v else (-1)%Q) (seq 0 (Z.to_nat MAX_SEQ_LEN)) in
  sortedOrigResults (row NO_ANSWER_THRESHOLD) (row 0%Q) (Feature.tokenToOrigMap f)
  = [AnswerIndex.mk 5 5 (NO_ANSWER_THRESHOLD + 0)%Q]
  /\ getBestAnswers (row NO_ANSWER_THRESHOLD) (row 0%Q) (Feature.origTokens f)
       (Feature.tokenToOrigMap f) (str "a b") 0 None
     = Some [Answer.mk (str "b") 2 3 (NO_ANSWER_THRESHOLD + 0)%Q (str "a b") None].
Proof. cbv zeta. split; vm_compute; reflexivity. Qed.

(** Every answer of [findAnswers] echoes the context and the id of the
    call. *)
Theorem findAnswers_echoes (self : QuestionAndAnswerImpl)
    (question context : jsString) (id : option jsString) (tr tr' : list event)
    (answers : list Answer.t) :
  findAnswers self (Some question) (Some context) id tr = (tr', Ret answers) ->
  Forall (fun a => Answer.context a = context /\ Answer.id a = id) answers.
Proof.
  rewrite findAnswers_run.
  destruct (processOutcome _ _ _ _ _ _) as [features|e|]; [|discriminate|discriminate].
  destruct (batchLoop _ _ _ _ _) as [perFeature|] eqn:Hbatch; [|discriminate].
  intros [= _ <-]. apply List.Forall_forall. intros a Ha. apply In_firstn in Ha.
  apply (proj1 (jsSort_In _ _ _)) in Ha. revert a Ha. apply List.Forall_forall.
  apply (In_concat_Forall2 _ _ _ _ (batchLoop_each _ _ _ _ _ _ Hbatch)).
  intros f l (sl & el & docIndex & Hl). now apply getBestAnswers_echo in Hl.
Qed.

Lemma findAnswers_echoes_witness :
  Forall (fun a => Answer.context a = str "a b" /\ Answer.id a = Some (str "id"))
    [Answer.mk (str "b") 2 3 20 (str "a b") (Some (str "id"))].
Proof.
  apply (findAnswers_echoes (exampleImpl 5 5) (str "q") (str "a b") (Some (str "id")) []
           [EvTokenize (str "q?"); EvProcessInput (str "a b"); EvTokenize (str "a");
            EvTokenize (str "b"); EvExecute 1]).
  vm_compute. reflexivity.
Defined.

(** ** The best positions *)

Lemma sortInsert_bestFirst {A : Type} (key : A -> Q) (pos : A -> Z) (x : A)
    (l : list A) :
  StronglySorted (bestFirst key pos) l ->
  Forall (fun y => pos x < pos y) l ->
  StronglySorted (bestFirst key pos) (sortInsert (fun a b => (key b - key a)%Q) x l).
Proof.
  induction l as [|y l IH]; intros Hl Hpos; simpl.
  - repeat constructor.
  - apply StronglySorted_inv in Hl. destruct Hl as [Hl Hy].
    apply List.Forall_cons_iff in Hpos. destruct Hpos as [Hxy Hpos].
    destruct (Qpositive (key y - key x)) eqn:Hcmp.
    + apply Qpositive_sub in Hcmp. constructor; [now apply IH|].
      rewrite List.Forall_forall in *. intros z Hz.
      apply (Permutation_in _ (sortInsert_perm _ x l)) in Hz.
      destruct Hz as [<-|Hz]; [now left | now apply Hy].
    + assert (key y <= key x)%Q as Hle.
      { apply Qnot_lt_le. intros Hlt. apply Qpositive_sub in Hlt. congruence. }
      constructor; [now constructor|].
      assert (forall z, (key z <= key x)%Q -> pos x < pos z -> bestFirst key pos x z)
        as Hbest.
      { intros z Hz Hxz. apply Qle_lt_or_eq in Hz. destruct Hz as [Hlt|Heq];
          [now left | right; split; [now symmetry | exact Hxz]]. }
      constructor; [now apply Hbest|].
      rewrite List.Forall_forall in *. intros z Hz. apply Hbest; [|now apply Hpos].
      apply Qle_trans with (key y); [|exact Hle].
      destruct (Hy z Hz) as [Hlt|[Heq _]];
        [now apply Qlt_le_weak | rewrite Heq; apply Qle_refl].
Qed.

(** The sort is stable: elements that stood in the order of [pos] come out
    by descending key, and in the order of [pos] where the keys are equal. *)
Lemma jsSort_bestFirst {A : Type} (key : A -> Q) (pos : A -> Z) (l : list A) :
  StronglySorted (fun a b => pos a < pos b) l ->
  StronglySorted (bestFirst key pos) (jsSort (fun a b => (key b - key a)%Q) l).
Proof.
  induction l as [|x l IH]; intros Hl; simpl; [constructor|].
  apply StronglySorted_inv in Hl. destruct Hl as [Hl Hx].
  apply sortInsert_bestFirst; [now apply IH|].
  rewrite List.Forall_forall in *. intros y Hy. apply Hx.
  now apply (proj1 (jsSort_In _ _ _)) in Hy.
Qed.

Lemma upto_sorted {B : Type} (g : Z -> B) (k : nat) :
  forall a : nat,
    StronglySorted (fun x y : Z * B => x.1 < y.1)
      (List.map (fun i => (i, g i)) (List.map Z.of_nat (seq a k))).
Proof.
  induction k as [|k IH]; intros a; simpl; constructor; [apply IH|].
  apply List.Forall_forall. intros y Hy.
  apply in_map_iff in Hy. destruct Hy as (i & <- & Hi).
  apply in_map_iff in Hi. destruct Hi as (n & <- & Hn).
  apply in_seq in Hn. simpl. lia.
Qed.

Lemma StronglySorted_map_In {A B : Type} (R : A -> A -> Prop) (R' : B -> B -> Prop)
    (g : A -> B) (l : list A) :
  (forall a b, In a l -> In b l -> R a b -> R' (g a) (g b)) ->
  StronglySorted R l -> StronglySorted R' (List.map g l).
Proof.
  induction l as [|x l IH]; intros Himp Hl; simpl; [constructor|].
  apply StronglySorted_inv in Hl. destruct Hl as [Hl Hx].
  constructor.
  - apply IH; [|exact Hl]. intros a b Ha Hb. apply Himp; now right.
  - apply List.Forall_forall. intros y Hy. apply in_map_iff in Hy.
    destruct Hy as (b & <- & Hb). rewrite List.Forall_forall in Hx.
    apply Himp; [now left | now right | now apply Hx].
Qed.

Lemma StronglySorted_app_cross {A : Type} (R : A -> A -> Prop) (l1 l2 : list A) :
  StronglySorted R (l1 ++ l2) ->
  StronglySorted R l1 /\ forall a b, In a l1 -> In b l2 -> R a b.
Proof.
  induction l1 as [|x l1 IH]; simpl; intros H.
  - split; [constructor | intros a b []].
  - apply StronglySorted_inv in H. destruct H as [Hl Hx].
    destruct (IH Hl) as [Hl1 Hcross]. split.
    + constructor; [exact Hl1|]. apply List.Forall_app in Hx. tauto.
    + intros a b [<-|Ha] Hb; [|now apply Hcross].
      rewrite List.Forall_forall in Hx. apply Hx. apply in_or_app. now right.
Qed.

Lemma StronglySorted_NoDup {A : Type} (R : A -> A -> Prop) (l : list A) :
  (forall a, ~ R a a) -> StronglySorted R l -> List.NoDup l.
Proof.
  intros Hirr. induction 1 as [|x l Hl IH Hx]; constructor; [|exact IH].
  intros Hin. rewrite List.Forall_forall in Hx. exact (Hirr x (Hx x Hin)).
Qed.

Lemma bestFirst_irrefl (key : Z -> Q) (i : Z) : ~ bestFirst key (fun i => i) i i.
Proof. intros [Hlt|[_ Hlt]]; [now apply Qlt_irrefl in Hlt | lia]. Qed.

Lemma sortedLogits_In (logits : list Q) (p : Z * Q) :
  In p (sortedLogits logits)
  <-> 0 <= p.1 < MAX_SEQ_LEN /\ p.2 = getQ logits p.1.
Proof.
  unfold sortedLogits. rewrite jsSort_In, in_map_iff. unfold upto. split.
  - intros (i & <- & Hi). apply in_map_iff in Hi. destruct Hi as (n & <- & Hn).
    apply in_seq in Hn. simpl. split; [lia | reflexivity].
  - intros [Hrange Hval]. exists p.1. split; [destruct p; simpl in *; now subst|].
    apply in_map_iff. exists (Z.to_nat p.1). split; [lia|]. apply in_seq. lia.
Qed.

Lemma sortedLogits_bestFirst (logits : list Q) :
  StronglySorted (bestFirst (getQ logits) (fun i => i))
    (List.map fst (sortedLogits logits)).
Proof.
  apply (StronglySorted_map_In (bestFirst snd fst)).
  - intros a b Ha Hb. apply (proj1 (sortedLogits_In _ _)) in Ha.
    apply (proj1 (sortedLogits_In _ _)) in Hb.
    destruct Ha as [_ Ha], Hb as [_ Hb]. unfold bestFirst. now rewrite Ha, Hb.
  - unfold sortedLogits, upto. apply (jsSort_bestFirst snd fst). apply upto_sorted.
Qed.

Lemma getBestIndex_sortedLogits (logits : list Q) :
  getBestIndex logits
  = firstn (Z.to_nat PREDICT_ANSWER_NUM) (List.map fst (sortedLogits logits)).
Proof. unfold getBestIndex, sortedLogits. now rewrite firstn_map. Qed.

Lemma length_sortedLogits (logits : list Q) :
  List.length (sortedLogits logits) = Z.to_nat MAX_SEQ_LEN.
Proof.
  unfold sortedLogits. rewrite (Permutation_length (jsSort_perm _ _)).
  unfold upto. now rewrite !List.length_map, List.length_seq.
Qed.

Lemma len_getBestIndex (logits : list Q) : len (getBestIndex logits) = PREDICT_ANSWER_NUM.
Proof.
  rewrite getBestIndex_sortedLogits. unfold len.
  rewrite firstn_length_le; [reflexivity|].
  rewrite List.length_map, length_sortedLogits. vm_compute. lia.
Qed.

Lemma getBestIndex_range (logits : list Q) (i : Z) :
  In i (getBestIndex logits) -> 0 <= i < MAX_SEQ_LEN.
Proof.
  rewrite getBestIndex_sortedLogits. intros Hi. apply In_firstn in Hi.
  apply in_map_iff in Hi. destruct Hi as (p & <- & Hp).
  now apply (proj1 (sortedLogits_In _ _)) in Hp.
Qed.

(** [getBestIndex], on a row of [MAX_SEQ_LEN] logits, returns the
    [PREDICT_ANSWER_NUM] best positions of the row, best first: five
    distinct positions of the row, each before the next in the order "a
    greater logit, or the same logit and a lesser position", and each before
    every position of the row that is not returned in that order. *)
Theorem getBestIndex_top_five (logits : list Q) :
  len logits = MAX_SEQ_LEN ->
  let best := getBestIndex logits in
  len best = PREDICT_ANSWER_NUM
  /\ Forall (fun i => 0 <= i < MAX_SEQ_LEN
                      /\ lookupZ logits i = Some (getQ logits i)) best
  /\ List.NoDup best
  /\ StronglySorted (bestFirst (getQ logits) (fun i => i)) best
  /\ forall i j, In i best -> 0 <= j < MAX_SEQ_LEN -> ~ In j best ->
                 bestFirst (getQ logits) (fun i => i) i j.
Proof.
  intros Hrow. cbv zeta.
  pose proof (sortedLogits_bestFirst logits) as Hsorted.
  rewrite <- (firstn_skipn (Z.to_nat PREDICT_ANSWER_NUM)
                (List.map fst (sortedLogits logits))) in Hsorted.
  apply StronglySorted_app_cross in Hsorted.
  rewrite <- getBestIndex_sortedLogits in Hsorted. destruct Hsorted as [Hbest Hcross].
  split; [apply len_getBestIndex|]. split; [|split; [|split; [exact Hbest|]]].
  - apply List.Forall_forall. intros i Hi. apply getBestIndex_range in Hi.
    split; [exact Hi|].
    destruct (lookupZ_in_range logits i) as [x Hx]; [lia|].
    unfold getQ. now rewrite Hx.
  - apply (StronglySorted_NoDup _ _ (bestFirst_irrefl (getQ logits)) Hbest).
  - intros i j Hi Hj Hout. apply Hcross; [exact Hi|].
    assert (In j (List.map fst (sortedLogits logits))) as Hin.
    { apply in_map_iff. exists (j, getQ logits j). split; [reflexivity|].
      apply (proj2 (sortedLogits_In _ _)). cbn [fst snd].
      split; [exact Hj | reflexivity]. }
    rewrite <- (firstn_skipn (Z.to_nat PREDICT_ANSWER_NUM)) in Hin.
    apply in_app_or in Hin. destruct Hin as [Hin|Hin]; [|exact Hin].
    rewrite <- getBestIndex_sortedLogits in Hin. contradiction.
Qed.

Lemma getBestIndex_top_five_witness :
  let best := getBestIndex (peakRow 4) in
  len best = PREDICT_ANSWER_NUM
  /\ Forall (fun i => 0 <= i < MAX_SEQ_LEN
                      /\ lookupZ (peakRow 4) i = Some (getQ (peakRow 4) i)) best
  /\ List.NoDup best
  /\ StronglySorted (bestFirst (getQ (peakRow 4)) (fun i => i)) best
  /\ forall i j, In i best -> 0 <= j < MAX_SEQ_LEN -> ~ In j best ->
                 bestFirst (getQ (peakRow 4)) (fun i => i) i j.
Proof.
  apply (getBestIndex_top_five (peakRow 4)). vm_compute. reflexivity.
Defined.

(** ** The candidates of a feature *)

Lemma length_flat_map_le {A B : Type} (g : A -> list B) (k : nat) (l : list A) :
  (forall x, (List.length (g x) <= k)%nat) ->
  (List.length (flat_map g l) <= k * List.length l)%nat.
Proof.
  intros Hg. induction l as [|x l IH]; simpl; [lia|].
  rewrite List.length_app. specialize (Hg x). lia.
Qed.

(** The candidates that [getBestAnswers] sorts: a pair of a best start
    position and a best end position is a candidate exactly when the map has
    an entry other than 0 at each position plus [OUTPUT_OFFSET], the end is
    not before the start and the span has fewer than [MAX_ANSWER_LEN]
    positions; its score is the sum of the two logits. There are at most 25
    candidates, and they are sorted by descending score. *)
Theorem candidates_kept (startLogits endLogits : list Q) (tokenToOrigMap : gmap Z Z) :
  len (sortedOrigResults startLogits endLogits tokenToOrigMap)
  <= PREDICT_ANSWER_NUM * PREDICT_ANSWER_NUM
  /\ descending AnswerIndex.score
       (sortedOrigResults startLogits endLogits tokenToOrigMap)
  /\ forall r,
       In r (sortedOrigResults startLogits endLogits tokenToOrigMap)
       <-> exists start end_ startIndex endIndex,
             In start (getBestIndex startLogits)
             /\ In end_ (getBestIndex endLogits)
             /\ tokenToOrigMap !! (start + OUTPUT_OFFSET) = Some startIndex
             /\ startIndex <> 0
             /\ tokenToOrigMap !! (end_ + OUTPUT_OFFSET) = Some endIndex
             /\ endIndex <> 0
             /\ start <= end_
             /\ end_ - start + 1 < MAX_ANSWER_LEN
             /\ r = AnswerIndex.mk start end_
                      (getQ startLogits start + getQ endLogits end_)%Q.
Proof.
  split; [|split; [apply sortedOrigResults_descending|]].
  - unfold sortedOrigResults, len.
    rewrite (Permutation_length (jsSort_perm _ _)). unfold origResultsOf.
    pose proof (len_getBestIndex startLogits) as Hs.
    pose proof (len_getBestIndex endLogits) as He.
    unfold len, PREDICT_ANSWER_NUM in *.
    pose proof (length_flat_map_le
                  (fun start =>
                     flat_map (fun end_ =>
                       if truthy (tokenToOrigMap !! (start + OUTPUT_OFFSET))
                          && truthy (tokenToOrigMap !! (end_ + OUTPUT_OFFSET))
                          && (end_ >=? start)
                       then
                         if end_ - start + 1 <? MAX_ANSWER_LEN
                         then [AnswerIndex.mk start end_
                                 (getQ startLogits start + getQ endLogits end_)%Q]
                         else []
                       else [])
                       (getBestIndex endLogits))
                  5 (getBestIndex startLogits)) as Hbound.
    cbv zeta in Hbound |- *.
    assert (List.length (getBestIndex startLogits) = 5%nat) as Hs' by lia.
    rewrite Hs' in Hbound. 
    etransitivity; [apply inj_le, Hbound|]; [|lia].
    intros start.
    pose proof (length_flat_map_le
                  (fun end_ =>
                     if truthy (tokenToOrigMap !! (start + OUTPUT_OFFSET))
                        && truthy (tokenToOrigMap !! (end_ + OUTPUT_OFFSET))
                        && (end_ >=? start)
                     then
                       if end_ - start + 1 <? MAX_ANSWER_LEN
                       then [AnswerIndex.mk start end_
                               (getQ startLogits start + getQ endLogits end_)%Q]
                       else []
                     else [])
                  1 (getBestIndex endLogits)) as Hinner.
    assert (List.length (getBestIndex endLogits) = 5%nat) as He' by lia.
    rewrite He' in Hinner. apply Hinner. intros end_.
    destruct (_ && _); [destruct (_ <? _)|]; simpl; lia.
  - intros r. split.
    + intros Hin. apply (proj1 (In_sortedOrigResults _ _ _ _)) in Hin.
      apply (proj1 (In_origResultsOf _ _ _ _ _ _)) in Hin.
      destruct Hin as (start & end_ & Hs & He & Ts & Te & Hle & Hlen & ->).
      apply truthy_Some in Ts, Te.
      destruct Ts as (vs & Hvs & Hnz), Te as (ve & Hve & Hnz').
      exists start, end_, vs, ve. tauto.
    + intros (start & end_ & vs & ve & Hs & He & Hvs & Hnz & Hve & Hnz' & Hle & Hlen & ->).
      apply (proj2 (In_sortedOrigResults _ _ _ _)).
      apply (proj2 (In_origResultsOf _ _ _ _ _ _)).
      exists start, end_. split; [exact Hs|]. split; [exact He|].
      split; [apply (proj2 (truthy_Some _)); exists vs; split; assumption|].
      split; [apply (proj2 (truthy_Some _)); exists ve; split; assumption|].
      split; [exact Hle|]. split; [exact Hlen | reflexivity].
Qed.

(** ** The configuration the class keeps *)

(** The constructor always leaves [fromTFHub] set. Without a configuration
    it keeps the default URL and loads from TF Hub; with one it keeps the
    URL given, and a [fromTFHub] that is absent becomes [false]. A
    configuration it has kept is kept as it is. *)
Theorem constructor_config (modelConfig : option ModelConfig) :
  let kept := constructor modelConfig in
  (exists b, fromTFHub kept = Some b)
  /\ (modelConfig = None ->
      kept = {| modelUrl := MODEL_URL; fromTFHub := Some true |})
  /\ (forall c, modelConfig = Some c ->
        modelUrl kept = modelUrl c
        /\ fromTFHub kept = Some (default false (fromTFHub c)))
  /\ constructor (Some kept) = kept.
Proof.
  cbv zeta. unfold constructor.
  destruct modelConfig as [[url [b|]]|]; cbn [modelUrl fromTFHub default];
    (split; [eauto|]); (split; [intros H; try discriminate H; reflexivity|]);
    (split; [intros c [= <-]; now split | reflexivity]).
Qed.

(** ** The offsets of an answer *)

Lemma wellPlaced_monotone (tokens : list Token.t) (n : Z) :
  wellPlaced tokens n ->
  forall (k i : nat) (a b : Token.t),
    nth_error tokens i = Some a -> nth_error tokens (i + k) = Some b ->
    Token.index a <= Token.index b.
Proof.
  intros [_ Hinc]. induction k as [|k IH]; intros i a b Ha Hb.
  - rewrite Nat.add_0_r in Hb. assert (a = b) as -> by congruence. lia.
  - destruct (nth_error tokens (i + k)) as [c|] eqn:Hc.
    + specialize (IH i a c Ha Hc).
      replace (i + S k)%nat with (S (i + k)) in Hb by lia.
      specialize (Hinc (i + k)%nat c b Hc Hb). lia.
    + apply nth_error_None in Hc.
      assert (nth_error tokens (i + S k) <> None) as Hsome by congruence.
      apply nth_error_Some in Hsome. lia.
Qed.

Lemma lookupZ_nth_error {A : Type} (l : list A) (i : Z) (x : A) :
  lookupZ l i = Some x -> nth_error l (Z.to_nat i) = Some x /\ 0 <= i.
Proof.
  unfold lookupZ. destruct (Z.ltb_spec i 0); [discriminate|]. now split.
Qed.

(** The offsets [convertBack] returns on tokens placed in a text. *)
Lemma convertBack_placed (origTokens : list Token.t) (tokenToOrigMap : gmap Z Z)
    (start end_ : Z) (context text : jsString) (startCharIndex endCharIndex : Z)
    (n startIndex endIndex : Z) :
  wellPlaced origTokens n ->
  tokenToOrigMap !! (start + OUTPUT_OFFSET) = Some startIndex ->
  tokenToOrigMap !! (end_ + OUTPUT_OFFSET) = Some endIndex ->
  startIndex <= endIndex ->
  convertBack origTokens tokenToOrigMap start end_ context
  = Some (text, startCharIndex, endCharIndex) ->
  0 <= startCharIndex <= endCharIndex
  /\ endCharIndex <= n
  /\ (endIndex < len origTokens - 1 -> endCharIndex < n)
  /\ text = trim (slice context startCharIndex (endCharIndex + 1))
  /\ exists startToken endToken,
       lookupZ origTokens startIndex = Some startToken
       /\ lookupZ origTokens endIndex = Some endToken
       /\ startCharIndex = Token.index startToken
       /\ (len origTokens - 1 <= endIndex ->
           endCharIndex = Token.index endToken + len (Token.text endToken)).
Proof.
  intros Hplaced Hs He Hle. unfold convertBack. rewrite Hs, He.
  cbn [mbind option_bind].
  destruct (lookupZ origTokens startIndex) as [startToken|] eqn:Hst; [|discriminate].
  cbn [mbind option_bind].
  apply lookupZ_nth_error in Hst. destruct Hst as [Hst Hs0].
  pose proof Hplaced as [Hin Hinc].
  destruct (Hin _ _ Hst) as [Hst0 Hstn].
  destruct (Z.ltb_spec endIndex (len origTokens - 1)) as [Hmid|Hlast].
  - destruct (lookupZ origTokens (endIndex + 1)) as [next|] eqn:Hnext; [|discriminate].
    cbn [mbind option_bind]. intros [= <- <- <-].
    apply lookupZ_nth_error in Hnext. destruct Hnext as [Hnext _].
    destruct (lookupZ_in_range origTokens endIndex) as [endToken Hend]; [lia|].
    pose proof Hend as Hend'. apply lookupZ_nth_error in Hend'.
    destruct Hend' as [Hend' _].
    replace (Z.to_nat (endIndex + 1)) with (S (Z.to_nat endIndex)) in Hnext by lia.
    pose proof (Hinc _ _ _ Hend' Hnext) as Hstep.
    destruct (Hin _ _ Hnext) as [_ Hnextn]. pose proof (len_nonneg (Token.text next)).
    assert (Token.index startToken <= Token.index endToken) as Hmono.
    { apply (wellPlaced_monotone _ _ Hplaced (Z.to_nat endIndex - Z.to_nat startIndex)
               (Z.to_nat startIndex)); [exact Hst|].
      replace (Z.to_nat startIndex + (Z.to_nat endIndex - Z.to_nat startIndex))%nat
        with (Z.to_nat endIndex) by lia.
      exact Hend'. }
    split; [lia|]. split; [lia|]. split; [lia|]. split; [reflexivity|].
    exists startToken, endToken.
    split; [reflexivity|]. split; [exact Hend|]. split; [reflexivity | lia].
  - destruct (lookupZ origTokens endIndex) as [endToken|] eqn:Hend; [|discriminate].
    cbn [mbind option_bind]. intros [= <- <- <-].
    pose proof Hend as Hend'. apply lookupZ_nth_error in Hend'.
    destruct Hend' as [Hend' _].
    destruct (Hin _ _ Hend') as [_ Hendn]. pose proof (len_nonneg (Token.text endToken)).
    assert (Token.index startToken <= Token.index endToken) as Hmono.
    { apply (wellPlaced_monotone _ _ Hplaced (Z.to_nat endIndex - Z.to_nat startIndex)
               (Z.to_nat startIndex)); [exact Hst|].
      replace (Z.to_nat startIndex + (Z.to_nat endIndex - Z.to_nat startIndex))%nat
        with (Z.to_nat endIndex) by lia.
      exact Hend'. }
    split; [lia|]. split; [lia|]. split; [lia|]. split; [reflexivity|].
    exists startToken, endToken.
    split; [reflexivity|]. split; [reflexivity|]. split; reflexivity.
Qed.

(** On tokens placed in a text of [n] code units, and positions whose
    entries are the indices [startIndex <= endIndex] of two tokens,
    [convertBack] returns offsets that are in order and at most [n]: the
    start of the start token, and the offset before the start of the token
    after the end token, which is less than [n]; for the last token, the
    offset after its text instead. *)
Theorem convertBack_offsets (origTokens : list Token.t) (tokenToOrigMap : gmap Z Z)
    (start end_ : Z) (context text : jsString) (startCharIndex endCharIndex : Z)
    (n startIndex endIndex : Z) :
  wellPlaced origTokens n ->
  tokenToOrigMap !! (start + OUTPUT_OFFSET) = Some startIndex ->
  tokenToOrigMap !! (end_ + OUTPUT_OFFSET) = Some endIndex ->
  startIndex <= endIndex ->
  convertBack origTokens tokenToOrigMap start end_ context
  = Some (text, startCharIndex, endCharIndex) ->
  0 <= startCharIndex <= endCharIndex
  /\ endCharIndex <= n
  /\ (endIndex < len origTokens - 1 -> endCharIndex < n)
  /\ text = trim (slice context startCharIndex (endCharIndex + 1))
  /\ exists startToken endToken,
       lookupZ origTokens startIndex = Some startToken
       /\ lookupZ origTokens endIndex = Some endToken
       /\ startCharIndex = Token.index startToken
       /\ (len origTokens - 1 <= endIndex ->
           endCharIndex = Token.index endToken + len (Token.text endToken)).
Proof. apply convertBack_placed. Qed.


Lemma originsFrom_monotone (subTokens : list (list Z)) :
  forall (i0 j1 j2 v1 v2 : Z),
    j1 <= j2 ->
    lookupZ (originsFrom i0 subTokens) j1 = Some v1 ->
    lookupZ (originsFrom i0 subTokens) j2 = Some v2 ->
    v1 <= v2.
Proof.
  induction subTokens as [|s rest IH]; intros i0 j1 j2 v1 v2 Hle H1 H2;
    [apply lookupZ_Some in H1; change (len (originsFrom i0 [])) with 0 in H1; lia|].
  cbn [originsFrom] in H1, H2.
  pose proof (lookupZ_Some _ _ _ H1) as Hr1.
  destruct (Z_lt_le_dec j1 (len s)) as [Hhere|Hlater].
  - rewrite lookupZ_app_l in H1 by (rewrite len_map; lia).
    apply lookupZ_In, in_map_iff in H1. destruct H1 as (_ & <- & _).
    apply lookupZ_In, in_app_or in H2. destruct H2 as [H2|H2].
    + apply in_map_iff in H2. destruct H2 as (_ & <- & _). lia.
    + apply originsFrom_range in H2. lia.
  - replace j1 with (len (List.map (fun _ : Z => i0) s) + (j1 - len s)) in H1
      by (rewrite len_map; lia).
    replace j2 with (len (List.map (fun _ : Z => i0) s) + (j2 - len s)) in H2
      by (rewrite len_map; lia).
    rewrite lookupZ_app_r in H1, H2 by lia.
    apply (IH (i0 + 1) (j1 - len s) (j2 - len s)); [lia | exact H1 | exact H2].
Qed.

Lemma length_dropWhile_le {A : Type} (p : A -> bool) (l : list A) :
  (List.length (dropWhile p l) <= List.length l)%nat.
Proof.
  induction l as [|x l IH]; simpl; [lia|]. destruct (p x); simpl; lia.
Qed.

Lemma len_trim_le (s : jsString) : len (trim s) <= len s.
Proof.
  unfold trim, len. rewrite List.length_rev.
  pose proof (length_dropWhile_le isWhiteSpace (rev (dropWhile isWhiteSpace s))).
  pose proof (length_dropWhile_le isWhiteSpace s).
  rewrite List.length_rev in *. lia.
Qed.

(** The entries other than 0 of the map of a feature are read in
    [tokenToOrigIndex]. *)
Lemma featureOf_map_origin (self : QuestionAndAnswerImpl) (query context : jsString)
    (maxSeqLen : Z) (docSpan : DocSpan.t) (key v : Z) :
  Feature.tokenToOrigMap (featureOf self query context maxSeqLen docSpan) !! key
  = Some v ->
  v <> 0 ->
  len (queryTokensOf self query) + 3 <= key
  /\ lookupZ (tokenToOrigIndexOf self context)
       (key - (len (queryTokensOf self query) + 3) + DocSpan.start docSpan) = Some v.
Proof.
  rewrite featureOf_map. intros Hkey Hv.
  destruct (Z.leb_spec (len (queryTokensOf self query) + 3) key); [|discriminate].
  destruct (_ <? _); [|discriminate]. cbn [andb] in Hkey. injection Hkey as <-.
  split; [assumption|]. unfold getZ in *.
  destruct (lookupZ _ _) as [x|]; cbn [default] in *; [reflexivity | congruence].
Qed.

Lemma featureOf_origTokens (self : QuestionAndAnswerImpl) (query context : jsString)
    (maxSeqLen : Z) (docSpan : DocSpan.t) :
  Feature.origTokens (featureOf self query context maxSeqLen docSpan)
  = origTokensOf self context.
Proof.
  unfold featureOf.
  now destruct (makeFeature_parts self (queryTokensOf self query)
                  (origTokensOf self context) (allDocTokensOf self context)
                  (tokenToOrigIndexOf self context) maxSeqLen docSpan) as (_ & -> & _).
Qed.

(** The offsets of the answers of a feature of [process]. *)
Lemma featureOf_answer_offsets (self : QuestionAndAnswerImpl)
    (query context : jsString) (maxSeqLen : Z) (docSpan : DocSpan.t)
    (startLogits endLogits : list Q) (ctx : jsString) (docIndex : Z)
    (id : option jsString) (n : Z) (answers : list Answer.t) :
  wellPlaced (origTokensOf self context) n ->
  getBestAnswers startLogits endLogits
    (Feature.origTokens (featureOf self query context maxSeqLen docSpan))
    (Feature.tokenToOrigMap (featureOf self query context maxSeqLen docSpan))
    ctx docIndex id = Some answers ->
  Forall (fun a => 0 <= Answer.startIndex a <= Answer.endIndex a
                   /\ Answer.endIndex a <= n
                   /\ Answer.text a
                      = trim (slice ctx (Answer.startIndex a) (Answer.endIndex a + 1)))
    answers.
Proof.
  intros Hplaced Hrun. rewrite featureOf_origTokens in Hrun.
  unfold getBestAnswers in Hrun. apply answersLoop_kept in Hrun.
  destruct Hrun as (kept & dropped & Hsplit & Hall & _).
  revert Hall. apply Forall2_Forall_r. intros r a Hin Hra.
  assert (In r (sortedOrigResults startLogits endLogits
                  (Feature.tokenToOrigMap (featureOf self query context maxSeqLen docSpan))))
    as Hcand by (rewrite Hsplit; apply in_or_app; left; exact Hin).
  apply (proj1 (In_sortedOrigResults _ _ _ _)) in Hcand.
  apply (proj1 (In_origResultsOf _ _ _ _ _ _)) in Hcand.
  destruct Hcand as (start & end_ & _ & _ & Ts & Te & Hle & _ & ->).
  apply truthy_Some in Ts. destruct Ts as (vs & Hvs & Hnzs).
  apply truthy_Some in Te. destruct Te as (ve & Hve & Hnze).
  destruct (featureOf_map_origin _ _ _ _ _ _ _ Hvs Hnzs) as [Hks Hos].
  destruct (featureOf_map_origin _ _ _ _ _ _ _ Hve Hnze) as [Hke Hoe].
  pose proof (len_nonneg (queryTokensOf self query)) as Hq.
  unfold OUTPUT_OFFSET in Hks, Hke.
  assert (vs <= ve) as Hmono.
  { unfold tokenToOrigIndexOf in Hos, Hoe.
    refine (originsFrom_monotone _ _ _ _ _ _ _ Hos Hoe).
    unfold OUTPUT_OFFSET. lia. }
  destruct Hra as (Hcb & _). cbn [AnswerIndex.start AnswerIndex.end_] in Hcb.
  destruct (Z.gtb_spec start 0); [|lia].
  destruct (convertBack_placed _ _ _ _ _ _ _ _ n _ _ Hplaced Hvs Hve Hmono Hcb)
    as (Horder & Hn & _ & Htext & _).
  split; [exact Horder|]. split; [exact Hn | exact Htext].
Qed.

Lemma Forall2_In_l {A B : Type} (P : A -> B -> Prop) (l : list A) (l' : list B) :
  Forall2 P l l' -> Forall2 (fun x y => In x l /\ P x y) l l'.
Proof.
  induction 1 as [|x y l l' Hxy _ IH]; constructor.
  - split; [now left | exact Hxy].
  - revert IH. apply Forall2_impl_In. intros a b _ [Ha Hab].
    split; [now right | exact Hab].
Qed.

(** When the tokens of the trimmed context start at increasing offsets of
    it and lie in it, every answer of [findAnswers] has offsets in order that
    are at most the length of the trimmed context, hence of the context, and
    its text is the trimmed slice of the context between them. *)
Theorem findAnswers_offsets (self : QuestionAndAnswerImpl)
    (question context : jsString) (id : option jsString) (tr tr' : list event)
    (answers : list Answer.t) :
  wellPlaced (origTokensOf self context) (len (trim context)) ->
  findAnswers self (Some question) (Some context) id tr = (tr', Ret answers) ->
  len (trim context) <= len context
  /\ Forall (fun a => 0 <= Answer.startIndex a <= Answer.endIndex a
                      /\ Answer.endIndex a <= len (trim context)
                      /\ Answer.text a
                         = trim (slice context (Answer.startIndex a)
                                   (Answer.endIndex a + 1)))
       answers.
Proof.
  intros Hplaced Hrun. rewrite findAnswers_run in Hrun.
  split; [apply len_trim_le|]. revert Hrun.
  destruct (processOutcome _ _ _ _ _ _) as [features|e|] eqn:Hout;
    [|discriminate|discriminate].
  apply processOutcome_Ret in Hout. destruct Hout as (_ & docSpans & _ & ->).
  destruct (batchLoop _ _ _ _ _) as [perFeature|] eqn:Hbatch; [|discriminate].
  intros [= _ <-]. apply List.Forall_forall. intros a Ha. apply In_firstn in Ha.
  apply (proj1 (jsSort_In _ _ _)) in Ha. revert a Ha. apply List.Forall_forall.
  apply (In_concat_Forall2 _ _ _ _ (Forall2_In_l _ _ _ (batchLoop_each _ _ _ _ _ _ Hbatch))).
  intros f l (Hf & sl & el & docIndex & Hl).
  apply in_map_iff in Hf. destruct Hf as (docSpan & <- & _).
  now apply (featureOf_answer_offsets _ _ _ _ _ _ _ _ _ _ _ _ Hplaced Hl).
Qed.

Lemma exampleTokens_wellPlaced :
  wellPlaced (origTokensOf (exampleImpl 5 5) (str "a b")) (len (trim (str "a b"))).
Proof.
  split.
  - intros [|[|i]] token Htoken; vm_compute in Htoken;
      [injection Htoken as <-; vm_compute; split; discriminate
      |injection Htoken as <-; vm_compute; split; discriminate
      |destruct i; discriminate].
  - intros [|[|i]] a b Ha Hb; vm_compute in Ha, Hb;
      [injection Ha as <-; injection Hb as <-; reflexivity
      |discriminate
      |destruct i; discriminate].
Qed.

Lemma findAnswers_offsets_witness :
  len (trim (str "a b")) <= len (str "a b")
  /\ Forall (fun a => 0 <= Answer.startIndex a <= Answer.endIndex a
                      /\ Answer.endIndex a <= len (trim (str "a b"))
                      /\ Answer.text a
                         = trim (slice (str "a b") (Answer.startIndex a)
                                   (Answer.endIndex a + 1)))
       [Answer.mk (str "b") 2 3 20 (str "a b") None].
Proof.
  apply (findAnswers_offsets (exampleImpl 5 5) (str "q") (str "a b") None []
           [EvTokenize (str "q?"); EvProcessInput (str "a b"); EvTokenize (str "a");
            EvTokenize (str "b"); EvExecute 1]).
  - apply exampleTokens_wellPlaced.
  - vm_compute. reflexivity.
Defined.

Lemma convertBack_offsets_witness :
  let f := featureOf (exampleImpl 5 5) (str "q") (str "a b") MAX_SEQ_LEN
             (DocSpan.mk 0 2) in
  0 <= 2 <= 3
  /\ 3 <= len (trim (str "a b"))
  /\ (1 < len (Feature.origTokens f) - 1 -> 3 < len (trim (str "a b")))
  /\ str "b" = trim (slice (str "a b") 2 (3 + 1))
  /\ exists startToken endToken,
       lookupZ (Feature.origTokens f) 1 = Some startToken
       /\ lookupZ (Feature.origTokens f) 1 = Some endToken
       /\ 2 = Token.index startToken
       /\ (len (Feature.origTokens f) - 1 <= 1 ->
           3 = Token.index endToken + len (Token.text endToken)).
Proof.
  apply (convertBack_offsets
           (Feature.origTokens
              (featureOf (exampleImpl 5 5) (str "q") (str "a b") MAX_SEQ_LEN
                 (DocSpan.mk 0 2)))
           (Feature.tokenToOrigMap
              (featureOf (exampleImpl 5 5) (str "q") (str "a b") MAX_SEQ_LEN
                 (DocSpan.mk 0 2)))
           5 5 (str "a b") (str "b") 2 3 (len (trim (str "a b"))) 1 1).
  - rewrite featureOf_origTokens. apply exampleTokens_wellPlaced.
  - vm_compute. reflexivity.
  - vm_compute. reflexivity.
  - lia.
  - vm_compute. reflexivity.
Defined.

